(** * fil-parser: the actor address resolution cache and the transaction
      assembler, embedded from [actors/cache] (Go) and checked against the
      design specification.

    The Go sources thread one mutable [*ActorsCache] through every call and
    return [(string, error)] pairs.  The embedding passes the cache
    explicitly, keeps a chronological record of every call made to the two
    collaborators (the offline store and the on-chain resolver), and bounds
    the depth of the Go call stack by a natural number. *)

From stdpp Require Import base strings gmap list.

Set Warnings "-clear-no-such-hyp".

Local Open Scope string_scope.
Local Open Scope list_scope.
Local Open Scope nat_scope.

(** ** Data model *)

(** [address.Address]; the cache only ever uses its [String()] rendering. *)
Record Address := { address_String : string }.

(** [filTypes.TipSetKey], an opaque reference to one chain state. *)
Definition TipSetKey := string.

(** [types.AddressInfo]; a facet that is not known is Go's zero value, the
    empty string. *)
Record AddressInfo := {
  Short : string;
  Robust : string;
  ActorCid : string;
}.

(** Go's [error] values and the [(string, error)] return convention: either
    a value with a nil error, or an error (the string is then ignored by
    every caller in the package). *)
Definition error := string.

Inductive result :=
  | Ok (v : string)
  | Err (e : error).

Definition is_Ok (r : result) : bool :=
  match r with Ok _ => true | Err _ => false end.

(** [IActorsCache]: the interface both tiers implement.  Reads do not change
    the implementation's state; [StoreAddressInfo] does. *)
Class IActorsCache (T : Type) := {
  impl_GetActorCode : T → Address → TipSetKey → result;
  impl_GetRobustAddress : T → Address → result;
  impl_GetShortAddress : T → Address → result;
  impl_StoreAddressInfo : AddressInfo → T → T;
}.

(** SystemActorsId: Map to identify system actors which don't have an
    associated robust address. *)
Definition SystemActorsId : gmap string bool :=
  <["f00" := true]> (<["f01" := true]> (<["f02" := true]> (<["f03" := true]>
  (<["f04" := true]> (<["f05" := true]> (<["f06" := true]> (<["f07" := true]>
  (<["f099" := true]> ∅)))))))).

(** ** The cache and its instrumentation *)

Inductive Tier := Offline | OnChain.

(** One entry per call made to a collaborator. *)
Inductive Event :=
  | EvGetActorCode (t : Tier) (add : Address) (key : TipSetKey)
  | EvGetRobustAddress (t : Tier) (add : Address)
  | EvGetShortAddress (t : Tier) (add : Address)
  | EvStoreAddressInfo (info : AddressInfo).

Definition is_onchain (e : Event) : bool :=
  match e with
  | EvGetActorCode OnChain _ _ | EvGetRobustAddress OnChain _
  | EvGetShortAddress OnChain _ => true
  | _ => false
  end.

(** Number of on-chain queries recorded in a call log. *)
Definition onchain_queries (l : list Event) : nat :=
  length (filter (λ e, is_onchain e = true) l).

Arguments onchain_queries : simpl never.

Section Cache.
Context {Off On : Type} `{!IActorsCache Off} `{!IActorsCache On}.

(** [ActorsCache]: the two tiers, plus the log of collaborator calls. *)
Record ActorsCache := {
  offlineCache : Off;
  onChainCache : On;
  calls : list Event;
}.

(** A method of [*ActorsCache] returning [A].  [None] is the Go runtime
    giving up because the call stack is exhausted. *)
Definition M (A : Type) : Type := ActorsCache → option A * ActorsCache.

Definition ret {A} (x : A) : M A := λ a, (Some x, a).

Definition bind {A B} (m : M A) (f : A → M B) : M B :=
  λ a, match m a with
       | (Some x, a') => f x a'
       | (None, a') => (None, a')
       end.

Definition overflow {A} : M A := λ a, (None, a).

Definition record (e : Event) (a : ActorsCache) : ActorsCache :=
  {| offlineCache := offlineCache a;
     onChainCache := onChainCache a;
     calls := calls a ++ [e] |}.

(** Calls into [a.offlineCache]. *)
Definition offline_GetActorCode (add : Address) (key : TipSetKey) : M result :=
  λ a, (Some (impl_GetActorCode (offlineCache a) add key),
        record (EvGetActorCode Offline add key) a).

Definition offline_GetRobustAddress (add : Address) : M result :=
  λ a, (Some (impl_GetRobustAddress (offlineCache a) add),
        record (EvGetRobustAddress Offline add) a).

Definition offline_GetShortAddress (add : Address) : M result :=
  λ a, (Some (impl_GetShortAddress (offlineCache a) add),
        record (EvGetShortAddress Offline add) a).

Definition stored (info : AddressInfo) (a : ActorsCache) : ActorsCache :=
  {| offlineCache := impl_StoreAddressInfo info (offlineCache a);
     onChainCache := onChainCache a;
     calls := calls a ++ [EvStoreAddressInfo info] |}.

Definition offline_StoreAddressInfo (info : AddressInfo) : M unit :=
  λ a, (Some tt, stored info a).

(** Calls into [a.onChainCache]. *)
Definition onChain_GetActorCode (add : Address) (key : TipSetKey) : M result :=
  λ a, (Some (impl_GetActorCode (onChainCache a) add key),
        record (EvGetActorCode OnChain add key) a).

Definition onChain_GetRobustAddress (add : Address) : M result :=
  λ a, (Some (impl_GetRobustAddress (onChainCache a) add),
        record (EvGetRobustAddress OnChain add) a).

Definition onChain_GetShortAddress (add : Address) : M result :=
  λ a, (Some (impl_GetShortAddress (onChainCache a) add),
        record (EvGetShortAddress OnChain add) a).

Notation "x <- m ;; k" := (bind m (λ x, k))
  (at level 100, m at next level, right associativity).

(** The store helpers return Go's [error]: [None] is nil. *)
Definition finish (v : string) (err : option error) : M result :=
  match err with
  | Some e => ret (Err e)
  | None => ret (Ok v)
  end.

(** How a resolve operation turns the outcome of its write-back into its
    own, and how a store helper turns the outcome of the lookup it runs
    into its own. *)
Definition lift_error (v : string) (out : option (option error) * ActorsCache)
  : option result * ActorsCache :=
  match out with
  | (Some (Some e), a') => (Some (Err e), a')
  | (Some None, a') => (Some (Ok v), a')
  | (None, a') => (None, a')
  end.

Definition then_store (mk : string → AddressInfo)
    (out : option result * ActorsCache)
  : option (option error) * ActorsCache :=
  match out with
  | (Some (Ok v), a') => (Some None, stored (mk v) a')
  | (Some (Err e), a') => (Some (Some e), a')
  | (None, a') => (None, a')
  end.

(** [GetShortAddress], [storeShortAddress], [GetRobustAddress] and
    [storeRobustAddress] call each other; [depth] is the number of stack
    frames still available. *)
Fixpoint GetShortAddress (depth : nat) (add : Address) {struct depth} : M result :=
  match depth with
  | O => overflow
  | S depth =>
      (* Try kv store cache *)
      r <- offline_GetShortAddress add;;
      match r with
      | Ok short => ret (Ok short)
      | Err _ =>
          (* Try on-chain cache *)
          r <- onChain_GetShortAddress add;;
          match r with
          | Err err => ret (Err err)
          | Ok short =>
              err <- storeShortAddress depth add
                    {| Short := short; Robust := ""; ActorCid := "" |};;
              finish short err
          end
      end
  end
with storeShortAddress (depth : nat) (add : Address) (info : AddressInfo)
     {struct depth} : M (option error) :=
  match depth with
  | O => overflow
  | S depth =>
      r <- GetRobustAddress depth add;;
      match r with
      | Err err => ret (Some err)
      | Ok robustAddress =>
          _ <- offline_StoreAddressInfo
                {| Short := Short info; Robust := robustAddress; ActorCid := "" |};;
          ret None
      end
  end
with GetRobustAddress (depth : nat) (add : Address) {struct depth} : M result :=
  match depth with
  | O => overflow
  | S depth =>
      match SystemActorsId !! address_String add with
      | Some _ => ret (Ok (address_String add))
      | None =>
          (* Try kv store cache *)
          r <- offline_GetRobustAddress add;;
          match r with
          | Ok robust => ret (Ok robust)
          | Err _ =>
              (* Try on-chain cache *)
              r <- onChain_GetRobustAddress add;;
              match r with
              | Err err => ret (Err err)
              | Ok robust =>
                  err <- storeRobustAddress depth add
                        {| Short := ""; Robust := robust; ActorCid := "" |};;
                  finish robust err
              end
          end
      end
  end
with storeRobustAddress (depth : nat) (add : Address) (info : AddressInfo)
     {struct depth} : M (option error) :=
  match depth with
  | O => overflow
  | S depth =>
      r <- GetShortAddress depth add;;
      match r with
      | Err err => ret (Some err)
      | Ok shortAddress =>
          _ <- offline_StoreAddressInfo
                {| Short := shortAddress; Robust := Robust info; ActorCid := "" |};;
          ret None
      end
  end.

Definition storeActorCode (depth : nat) (add : Address) (info : AddressInfo)
  : M (option error) :=
  match depth with
  | O => overflow
  | S depth =>
      r <- GetShortAddress depth add;;
      match r with
      | Err err => ret (Some err)
      | Ok shortAddress =>
          _ <- offline_StoreAddressInfo
                {| Short := shortAddress; Robust := ""; ActorCid := ActorCid info |};;
          ret None
      end
  end.

Definition GetActorCode (depth : nat) (add : Address) (key : TipSetKey) : M result :=
  match depth with
  | O => overflow
  | S depth =>
      (* Try kv store cache *)
      r <- offline_GetActorCode add key;;
      match r with
      | Ok actorCode => ret (Ok actorCode)
      | Err _ =>
          (* Try on-chain cache *)
          r <- onChain_GetActorCode add key;;
          match r with
          | Err err => ret (Err err)
          | Ok actorCode =>
              err <- storeActorCode depth add
                    {| Short := ""; Robust := ""; ActorCid := actorCode |};;
              finish actorCode err
          end
      end
  end.

(** [a'] is [a] after some more collaborator calls: the resolver is the
    same and the log has only grown. *)
Definition extends (a a' : ActorsCache) : Prop :=
  onChainCache a' = onChainCache a ∧ ∃ rest, calls a' = calls a ++ rest.

(** *** What a resolve operation amounts to

    The three public operations, addressed uniformly. *)
Inductive Facet :=
  | FCode (key : TipSetKey)
  | FRobust
  | FShort.

Definition resolve (f : Facet) (depth : nat) (add : Address) : M result :=
  match f with
  | FCode key => GetActorCode depth add key
  | FRobust => GetRobustAddress depth add
  | FShort => GetShortAddress depth add
  end.

(** The answer of one tier for one facet. *)
Definition tier_answer {T} `{!IActorsCache T} (f : Facet) (t : T) (add : Address) : result :=
  match f with
  | FCode key => impl_GetActorCode t add key
  | FRobust => impl_GetRobustAddress t add
  | FShort => impl_GetShortAddress t add
  end.

(** The collaborator call that asks tier [t] for facet [f]. *)
Definition query (t : Tier) (f : Facet) (add : Address) : Event :=
  match f with
  | FCode key => EvGetActorCode t add key
  | FRobust => EvGetRobustAddress t add
  | FShort => EvGetShortAddress t add
  end.

(** The write-back a resolve operation runs after the resolver produced
    [v]. *)
Definition write_back (f : Facet) (depth : nat) (add : Address) (v : string)
  : M (option error) :=
  match f with
  | FCode _ => storeActorCode depth add {| Short := ""; Robust := ""; ActorCid := v |}
  | FRobust => storeRobustAddress depth add {| Short := ""; Robust := v; ActorCid := "" |}
  | FShort => storeShortAddress depth add {| Short := v; Robust := ""; ActorCid := "" |}
  end.

Definition is_system (add : Address) : bool :=
  bool_decide (is_Some (SystemActorsId !! address_String add)).

(** Value returned and store contents reached by [GetShortAddress] when it
    returns, read off the two tiers; [None] when the write-back of the
    short form and the write-back of the robust form keep calling each
    other. *)
Definition short_outcome (off : Off) (on : On) (add : Address)
  : option (result * Off) :=
  match impl_GetShortAddress off add with
  | Ok short => Some (Ok short, off)
  | Err _ =>
      match impl_GetShortAddress on add with
      | Err e => Some (Err e, off)
      | Ok short =>
          if is_system add then
            Some (Ok short,
                  impl_StoreAddressInfo
                    {| Short := short; Robust := address_String add; ActorCid := "" |} off)
          else
            match impl_GetRobustAddress off add with
            | Ok robust =>
                Some (Ok short,
                      impl_StoreAddressInfo
                        {| Short := short; Robust := robust; ActorCid := "" |} off)
            | Err _ =>
                match impl_GetRobustAddress on add with
                | Err e => Some (Err e, off)
                | Ok _ => None
                end
            end
      end
  end.

Definition robust_outcome (off : Off) (on : On) (add : Address)
  : option (result * Off) :=
  if is_system add then Some (Ok (address_String add), off)
  else
    match impl_GetRobustAddress off add with
    | Ok robust => Some (Ok robust, off)
    | Err _ =>
        match impl_GetRobustAddress on add with
        | Err e => Some (Err e, off)
        | Ok robust =>
            match impl_GetShortAddress off add with
            | Ok short =>
                Some (Ok robust,
                      impl_StoreAddressInfo
                        {| Short := short; Robust := robust; ActorCid := "" |} off)
            | Err _ =>
                match impl_GetShortAddress on add with
                | Err e => Some (Err e, off)
                | Ok _ => None
                end
            end
        end
    end.

Definition code_outcome (off : Off) (on : On) (add : Address) (key : TipSetKey)
  : option (result * Off) :=
  match impl_GetActorCode off add key with
  | Ok code => Some (Ok code, off)
  | Err _ =>
      match impl_GetActorCode on add key with
      | Err e => Some (Err e, off)
      | Ok code =>
          match short_outcome off on add with
          | None => None
          | Some (Err e, off') => Some (Err e, off')
          | Some (Ok short, off') =>
              Some (Ok code,
                    impl_StoreAddressInfo
                      {| Short := short; Robust := ""; ActorCid := code |} off')
          end
      end
  end.

Definition outcome (f : Facet) (off : Off) (on : On) (add : Address)
  : option (result * Off) :=
  match f with
  | FCode key => code_outcome off on add key
  | FRobust => robust_outcome off on add
  | FShort => short_outcome off on add
  end.

(** Stack frames the returning path of each operation takes: one when the
    store or the resolver settles the matter, three when a write-back and
    the lookup under it are entered, two more for [GetActorCode] on top of
    the short-form lookup of its write-back. *)
Definition short_frames (off : Off) (on : On) (add : Address) : nat :=
  match impl_GetShortAddress off add, impl_GetShortAddress on add with
  | Err _, Ok _ => 3
  | _, _ => 1
  end.

Definition robust_frames (off : Off) (on : On) (add : Address) : nat :=
  if is_system add then 1
  else
    match impl_GetRobustAddress off add, impl_GetRobustAddress on add with
    | Err _, Ok _ => 3
    | _, _ => 1
    end.

Definition code_frames (off : Off) (on : On) (add : Address) (key : TipSetKey) : nat :=
  match impl_GetActorCode off add key, impl_GetActorCode on add key with
  | Err _, Ok _ => 2 + short_frames off on add
  | _, _ => 1
  end.

Definition frames (f : Facet) (off : Off) (on : On) (add : Address) : nat :=
  match f with
  | FCode key => code_frames off on add key
  | FRobust => robust_frames off on add
  | FShort => short_frames off on add
  end.

(** [GetRobustAddress] is the one operation that looks at
    [SystemActorsId]. *)
Definition short_circuits (f : Facet) (add : Address) : bool :=
  match f with
  | FRobust => is_system add
  | _ => false
  end.

(** The facet a write-back resolves before it can store: the code and the
    robust form are stored under the short form, the short form next to
    the robust form. *)
Definition complement (f : Facet) : Facet :=
  match f with
  | FCode _ => FShort
  | FRobust => FShort
  | FShort => FRobust
  end.

(** The cache after both tiers were asked for [f]. *)
Definition asked_both (f : Facet) (add : Address) (a : ActorsCache) : ActorsCache :=
  record (query OnChain f add) (record (query Offline f add) a).

(** The failure rule in the words of the specification: a resolve
    operation that returns fails exactly when neither tier produces the
    facet. *)
Definition fails_iff_both_tiers_fail (f : Facet) (depth : nat) (add : Address)
    (a : ActorsCache) : Prop :=
  ∀ r, fst (resolve f depth add a) = Some r →
       (is_Ok r = false ↔
        is_Ok (tier_answer f (offlineCache a) add) = false ∧
        is_Ok (tier_answer f (onChainCache a) add) = false).

End Cache.

Arguments ActorsCache : clear implicits.
Arguments M : clear implicits.

(** ** The offline store *)

(** Modelled from the spec: the in-memory Offline Store ([impl.Memory] is
    not part of the sources at hand).  A table of address facts with point
    reads and merge-writes: a record is kept under its short form, a read
    looks the table up under the representation the caller supplies, and a
    write merges facet by facet into the record already there. *)
Abbreviation Memory := (gmap string AddressInfo).

Definition ErrKeyNotFound : error := "key not found".

Definition blank : AddressInfo := {| Short := ""; Robust := ""; ActorCid := "" |}.

(** One facet of a merge: an empty incoming facet keeps what is stored. *)
Definition pick (stored incoming : string) : string :=
  if decide (incoming = "") then stored else incoming.

Definition merge (stored incoming : AddressInfo) : AddressInfo :=
  {| Short := pick (Short stored) (Short incoming);
     Robust := pick (Robust stored) (Robust incoming);
     ActorCid := pick (ActorCid stored) (ActorCid incoming) |}.

(** Modelled from the spec: [StoreAddressInfo] of the Offline Store, absent
    from the sources at hand.  The write is merged into the record kept
    under the short form it carries, not put in its place. *)
Definition Memory_StoreAddressInfo (info : AddressInfo) (m : Memory) : Memory :=
  <[Short info := merge (default blank (m !! Short info)) info]> m.

(** The record kept for an identity; [blank] when there is none. *)
Definition Memory_record (m : Memory) (id : string) : AddressInfo :=
  default blank (m !! id).

(** Modelled from the spec: the three point reads of the Offline Store,
    absent from the sources at hand.  A facet that is not there is a miss,
    reported the way the interface reports it, as an error. *)
Definition found (v : string) : result :=
  if decide (v = "") then Err ErrKeyNotFound else Ok v.

Definition Memory_GetActorCode (m : Memory) (add : Address) (key : TipSetKey) : result :=
  found (ActorCid (Memory_record m (address_String add))).

Definition Memory_GetRobustAddress (m : Memory) (add : Address) : result :=
  found (Robust (Memory_record m (address_String add))).

Definition Memory_GetShortAddress (m : Memory) (add : Address) : result :=
  found (Short (Memory_record m (address_String add))).

#[export] Instance Memory_IActorsCache : IActorsCache Memory := {|
  impl_GetActorCode := Memory_GetActorCode;
  impl_GetRobustAddress := Memory_GetRobustAddress;
  impl_GetShortAddress := Memory_GetShortAddress;
  impl_StoreAddressInfo := Memory_StoreAddressInfo;
|}.

(** The names of the three facets of a record. *)
Inductive FacetName := NShort | NRobust | NActorCid.

Definition facet (n : FacetName) (info : AddressInfo) : string :=
  match n with
  | NShort => Short info
  | NRobust => Robust info
  | NActorCid => ActorCid info
  end.

(** A run of partial writes, first to last. *)
Definition Memory_store_all (puts : list AddressInfo) (m : Memory) : Memory :=
  foldl (λ m info, Memory_StoreAddressInfo info m) m puts.

(** The value last supplied, non-empty, for facet [n] of identity [id],
    starting from [before]. *)
Definition latest (n : FacetName) (id : string) (before : string)
    (puts : list AddressInfo) : string :=
  foldl (λ acc info, if decide (Short info = id) then pick acc (facet n info) else acc)
        before puts.

(** A write that changes nothing: its record is there and already holds
    every facet it brings. *)
Definition absorbed (info : AddressInfo) (m : Memory) : Prop :=
  ∃ rec, m !! Short info = Some rec ∧ merge rec info = rec.

(** ** The on-chain resolver *)

(** Modelled from the spec: the On-Chain Resolver ([impl.OnChain] is not
    part of the sources at hand).  The node is the authority: it answers
    from the chain state, keeps nothing, and fails for an actor it does not
    know.  The chain state is given as three tables. *)
Record Node := {
  node_code : gmap (string * TipSetKey) string;
  node_robust : gmap string string;
  node_short : gmap string string;
}.

Definition ErrActorNotFound : error := "actor not found".

Definition answer (o : option string) : result :=
  match o with
  | Some v => Ok v
  | None => Err ErrActorNotFound
  end.

#[export] Instance Node_IActorsCache : IActorsCache Node := {|
  impl_GetActorCode n add key := answer (node_code n !! (address_String add, key));
  impl_GetRobustAddress n add := answer (node_robust n !! address_String add);
  impl_GetShortAddress n add := answer (node_short n !! address_String add);
  impl_StoreAddressInfo _ n := n;
|}.

(** ** A small chain state, for the examples

    [f1abc] is an account known to the node under both address forms;
    [f0999] has a short form but no robust form on chain; of the system
    actors, [f05] has a code and a short form and [f00] is in no table. *)
Definition f1abc : Address := {| address_String := "f1abc" |}.
Definition f0999 : Address := {| address_String := "f0999" |}.
Definition f00 : Address := {| address_String := "f00" |}.
Definition f05 : Address := {| address_String := "f05" |}.

Definition head_key : TipSetKey := "bafy2bzaceahead".

Definition mainnet : Node := {|
  node_code := <[("f1abc", head_key) := "fil/11/account"]>
               {[ ("f05", head_key) := "fil/11/storagemarket" ]};
  node_robust := {[ "f1abc" := "f1abc" ]};
  node_short := <["f1abc" := "f0123"]> (<["f0999" := "f0999"]> {[ "f05" := "f05" ]});
|}.

(** A cache that has not seen any identity yet. *)
Definition fresh (n : Node) : ActorsCache Memory Node :=
  {| offlineCache := ∅; onChainCache := n; calls := [] |}.

(** ** The transaction assembler *)

(** [types.BlockMetadata]: the node that produced the traces. *)
Record BlockMetadata := { NodeMajorMinorVersion : string }.

(** The part of [types.ExtendedTipSet] the assembler reads: the tipset's
    own identifier and, for each of its blocks, the block's identifier and
    the parent base fee recorded in it. *)
Record Block := { Cid : string; ParentBaseFee : N }.

Record ExtendedTipSet := { GetCidString : string; Blocks : list Block }.

(** A decoded fee entry: the level of the trace it belongs to and the base
    fee it carries (a [uint64]; the assembler does no arithmetic on it). *)
Record FeeEntry := { Level : nat; BaseFee : N }.

(** [types.GenesisBalances]: the initial allocations, in order. *)
Record GenesisBalance := { Key : string; Balance : N }.

(** [types.Transaction], reduced to the recipient, the amount and the
    provenance pair. *)
Record Transaction := {
  TxTo : AddressInfo;
  Amount : N;
  BlockCid : string;
  TipsetCid : string;
}.

Section Assembler.

(** The protocol decoders are pluggable: [decode] stands for selecting the
    decoder by the reported node version and running it on the payload;
    [None] is a decoding failure. *)
Variable decode : BlockMetadata → list Byte.byte → option (list FeeEntry).

(** What the address resolution cache yields for a recipient. *)
Variable resolved : string → AddressInfo.

(** The fee entries at trace level zero, in order of occurrence. *)
Definition level_zero (entries : list FeeEntry) : list FeeEntry :=
  filter (λ e, Level e = 0) entries.

(** Modelled from the spec: [GetBaseFee] (the assembler is not part of the
    sources at hand, only its tests are).  It scans the decoded fee entries
    for the base fee at trace level zero and takes the first occurrence; if
    no usable entry exists (decoding failure or entry absent) it falls back
    to the parent base fee recorded in the first block of the tipset. *)
Definition GetBaseFee (traces : list Byte.byte) (metadata : BlockMetadata)
    (tipset : ExtendedTipSet) : option N :=
  let fallback := ParentBaseFee <$> head (Blocks tipset) in
  match decode metadata traces with
  | Some entries =>
      match level_zero entries with
      | e :: _ => Some (BaseFee e)
      | [] => fallback
      end
  | None => fallback
  end.

(** The block identifier a tipset is known by: that of its first block. *)
Definition block_identifier (tipset : ExtendedTipSet) : string :=
  default "" (Cid <$> head (Blocks tipset)).

(** Modelled from the spec: [ParseGenesis] (the assembler is not part of
    the sources at hand, only its tests are).  One transaction per
    balance-allocation entry, each tagged with the genesis tipset's own
    block and tipset identifiers; the recipient goes through the address
    resolution cache. *)
Definition ParseGenesis (genesis : list GenesisBalance) (genesisTipset : ExtendedTipSet)
  : list Transaction :=
  map (λ balance,
         {| TxTo := resolved (Key balance);
            Amount := Balance balance;
            BlockCid := block_identifier genesisTipset;
            TipsetCid := GetCidString genesisTipset |})
      genesis.

End Assembler.

(** A decoder for the examples: the payload is a run of (level, fee) byte
    pairs; a payload of odd length does not decode. *)
Fixpoint decode_pairs (traces : list Byte.byte) : option (list FeeEntry) :=
  match traces with
  | [] => Some []
  | l :: v :: rest =>
      entries ← decode_pairs rest;
      Some ({| Level := N.to_nat (Byte.to_N l); BaseFee := Byte.to_N v |} :: entries)
  | [_] => None
  end.

Definition genesis_block : Block :=
  {| Cid := "bafy2bzacecnamqgqmifpluoeldx7zzglxcljo6oja4vrmtj7432rphldpdmm2";
     ParentBaseFee := 100 |}.

Definition genesis_tipset : ExtendedTipSet :=
  {| GetCidString := "bafy2bzacea3l7hchfijz5fvswab36fxepf6oagecp5hrstmol7zpm2l4tedf6";
     Blocks := [genesis_block] |}.

(** ** Reading the call log *)

Definition is_write (e : Event) : bool :=
  match e with
  | EvStoreAddressInfo _ => true
  | _ => false
  end.

(** Number of writes to the offline store recorded in a call log. *)
Definition store_writes (l : list Event) : nat :=
  length (filter (λ e, is_write e = true) l).

Arguments store_writes : simpl never.

(** The same question, put to the offline store. *)
Definition offline_twin (e : Event) : Event :=
  match e with
  | EvGetActorCode _ add key => EvGetActorCode Offline add key
  | EvGetRobustAddress _ add => EvGetRobustAddress Offline add
  | EvGetShortAddress _ add => EvGetShortAddress Offline add
  | EvStoreAddressInfo info => EvStoreAddressInfo info
  end.

(** Every on-chain query of the log comes right after the same question
    was put to the offline store. *)
Definition store_first (l : list Event) : Prop :=
  ∀ i e, l !! i = Some e → is_onchain e = true →
         ∃ j, i = S j ∧ l !! j = Some (offline_twin e).

(** Every write of the log leaves the robust form or the code empty. *)
Definition partial_writes (l : list Event) : Prop :=
  ∀ info, EvStoreAddressInfo info ∈ l → Robust info = "" ∨ ActorCid info = "".

Definition succeeded (o : option result) : bool :=
  match o with
  | Some (Ok _) => true
  | _ => false
  end.

(** The one situation the two address lookups do not get out of: an
    identity outside [SystemActorsId], neither address form in the store,
    both known to the node; for [GetActorCode], with the code missing from
    the store and known to the node on top. *)
Definition cold_for {Off On : Type} `{!IActorsCache Off} `{!IActorsCache On}
    (f : Facet) (off : Off) (on : On) (add : Address) : bool :=
  negb (is_Ok (tier_answer f off add)) && is_Ok (tier_answer f on add) &&
  negb (is_system add) &&
  negb (is_Ok (impl_GetShortAddress off add)) &&
  negb (is_Ok (impl_GetRobustAddress off add)) &&
  is_Ok (impl_GetShortAddress on add) && is_Ok (impl_GetRobustAddress on add).

(** The facet of a record a resolve operation is after. *)
Definition facet_of (f : Facet) (info : AddressInfo) : string :=
  match f with
  | FCode _ => ActorCid info
  | FRobust => Robust info
  | FShort => Short info
  end.

(** ** Setting the cache up *)

(** The offline store is held behind the interface: it is the persistent
    store or the in-memory one. *)
#[export] Instance sum_IActorsCache {KV Mem : Type}
    `{!IActorsCache KV} `{!IActorsCache Mem} : IActorsCache (KV + Mem) := {|
  impl_GetActorCode t add key :=
    match t with
    | inl kv => impl_GetActorCode kv add key
    | inr m => impl_GetActorCode m add key
    end;
  impl_GetRobustAddress t add :=
    match t with
    | inl kv => impl_GetRobustAddress kv add
    | inr m => impl_GetRobustAddress m add
    end;
  impl_GetShortAddress t add :=
    match t with
    | inl kv => impl_GetShortAddress kv add
    | inr m => impl_GetShortAddress m add
    end;
  impl_StoreAddressInfo info t :=
    match t with
    | inl kv => inl (impl_StoreAddressInfo info kv)
    | inr m => inr (impl_StoreAddressInfo info m)
    end;
|}.

Section Setup.
Context {DataSource OnChainImpl KVStore MemoryImpl : Type}.

(** The three [NewImpl] constructors: the implementation, or the error. *)
Variable OnChain_NewImpl : DataSource → OnChainImpl + error.
Variable KVStore_NewImpl : DataSource → KVStore + error.
Variable Memory_NewImpl : DataSource → MemoryImpl + error.

Definition SetupActorsCache (dataSource : DataSource)
  : ActorsCache (KVStore + MemoryImpl) OnChainImpl + error :=
  match OnChain_NewImpl dataSource with
  | inr err => inr err
  | inl onChainCache =>
      (* Try kvStore cache, if it fails, on-memory cache *)
      match KVStore_NewImpl dataSource with
      | inl kvStoreCache =>
          inl {| offlineCache := inl kvStoreCache;
                 onChainCache := onChainCache;
                 calls := [] |}
      | inr _ =>
          match Memory_NewImpl dataSource with
          | inr err => inr err
          | inl inMemoryCache =>
              inl {| offlineCache := inr inMemoryCache;
                     onChainCache := onChainCache;
                     calls := [] |}
          end
      end
  end.

End Setup.

(** ** The fixture files of the parser tests *)

Definition dataPath : string := "data/heights".
Definition fileDataExtension : string := "json.gz".
Definition tracesPrefix : string := "traces".
Definition tipsetPrefix : string := "tipset".
Definition ethLogPrefix : string := "ethlog".

(** [fmt.Sprintf(`%s/%s_%s.%s`, dataPath, prefix, height, fileDataExtension)] *)
Definition getFilename (prefix height : string) : string :=
  dataPath +:+ "/" +:+ prefix +:+ "_" +:+ height +:+ "." +:+ fileDataExtension.

Definition tracesFilename (height : string) : string :=
  getFilename tracesPrefix height.

Definition ehtlogFilename (height : string) : string :=
  getFilename ethLogPrefix height.

Definition tipsetFilename (height : string) : string :=
  getFilename tipsetPrefix height.

(** * Properties of the cache *)

Section CacheProperties.
Context {Off On : Type} `{!IActorsCache Off} `{!IActorsCache On}.

Implicit Types (a : ActorsCache Off On) (add : Address) (d depth : nat).

Lemma is_system_true add :
  is_system add = true → ∃ b, SystemActorsId !! address_String add = Some b.
Proof. unfold is_system. intros Hs. apply bool_decide_eq_true in Hs. exact Hs. Qed.

Lemma is_system_false add :
  is_system add = false → SystemActorsId !! address_String add = None.
Proof.
  unfold is_system. intros Hs. apply bool_decide_eq_false in Hs.
  destruct (SystemActorsId !! address_String add) eqn:E; [|done].
  exfalso. apply Hs. eauto.
Qed.

(** *** One step of each method *)

Notation "x <- m ;; k" := (bind m (λ x, k))
  (at level 100, m at next level, right associativity).

Lemma GetShortAddress_S d add a :
  GetShortAddress (S d) add a =
  match impl_GetShortAddress (offlineCache a) add with
  | Ok short => (Some (Ok short), record (EvGetShortAddress Offline add) a)
  | Err _ =>
      match impl_GetShortAddress (onChainCache a) add with
      | Err e =>
          (Some (Err e),
           record (EvGetShortAddress OnChain add) (record (EvGetShortAddress Offline add) a))
      | Ok short =>
          lift_error short
            (storeShortAddress d add {| Short := short; Robust := ""; ActorCid := "" |}
               (record (EvGetShortAddress OnChain add) (record (EvGetShortAddress Offline add) a)))
      end
  end.
Proof.
  change (GetShortAddress (S d) add a) with
    ((r <- offline_GetShortAddress add;;
      match r with
      | Ok short => ret (Ok short)
      | Err _ =>
          r <- onChain_GetShortAddress add;;
          match r with
          | Err err => ret (Err err)
          | Ok short =>
              err <- storeShortAddress d add
                    {| Short := short; Robust := ""; ActorCid := "" |};;
              finish short err
          end
      end) a).
  unfold bind at 1, offline_GetShortAddress.
  destruct (impl_GetShortAddress (offlineCache a) add); [reflexivity|].
  unfold bind at 1, onChain_GetShortAddress. cbv zeta.
  cbn [offlineCache onChainCache record].
  destruct (impl_GetShortAddress (onChainCache a) add); [|reflexivity].
  unfold bind.
  destruct (storeShortAddress _ _ _ _) as [[[x|]|] a']; reflexivity.
Qed.

Lemma storeShortAddress_S d add info a :
  storeShortAddress (S d) add info a =
  then_store (λ robust, {| Short := Short info; Robust := robust; ActorCid := "" |})
    (GetRobustAddress d add a).
Proof.
  change (storeShortAddress (S d) add info a) with
    ((r <- GetRobustAddress d add;;
      match r with
      | Err err => ret (Some err)
      | Ok robustAddress =>
          _ <- offline_StoreAddressInfo
                {| Short := Short info; Robust := robustAddress; ActorCid := "" |};;
          ret None
      end) a).
  unfold bind at 1.
  destruct (GetRobustAddress d add a) as [[[v|e]|] a']; reflexivity.
Qed.

Lemma GetRobustAddress_S d add a :
  GetRobustAddress (S d) add a =
  match SystemActorsId !! address_String add with
  | Some _ => (Some (Ok (address_String add)), a)
  | None =>
          match impl_GetRobustAddress (offlineCache a) add with
      | Ok robust => (Some (Ok robust), record (EvGetRobustAddress Offline add) a)
      | Err _ =>
              match impl_GetRobustAddress (onChainCache a) add with
          | Err e =>
              (Some (Err e),
               record (EvGetRobustAddress OnChain add) (record (EvGetRobustAddress Offline add) a))
          | Ok robust =>
              lift_error robust
                (storeRobustAddress d add {| Short := ""; Robust := robust; ActorCid := "" |}
                   (record (EvGetRobustAddress OnChain add) (record (EvGetRobustAddress Offline add) a)))
          end
      end
  end.
Proof.
  change (GetRobustAddress (S d) add a) with
    (match SystemActorsId !! address_String add with
     | Some _ => ret (Ok (address_String add))
     | None =>
         r <- offline_GetRobustAddress add;;
         match r with
         | Ok robust => ret (Ok robust)
         | Err _ =>
             r <- onChain_GetRobustAddress add;;
             match r with
             | Err err => ret (Err err)
             | Ok robust =>
                 err <- storeRobustAddress d add
                       {| Short := ""; Robust := robust; ActorCid := "" |};;
                 finish robust err
             end
         end
     end a).
  destruct (SystemActorsId !! address_String add); [reflexivity|].
  unfold bind at 1, offline_GetRobustAddress.
  destruct (impl_GetRobustAddress (offlineCache a) add); [reflexivity|].
  unfold bind at 1, onChain_GetRobustAddress. cbv zeta.
  cbn [offlineCache onChainCache record].
  destruct (impl_GetRobustAddress (onChainCache a) add); [|reflexivity].
  unfold bind.
  destruct (storeRobustAddress _ _ _ _) as [[[x|]|] a']; reflexivity.
Qed.

Lemma storeRobustAddress_S d add info a :
  storeRobustAddress (S d) add info a =
  then_store (λ short, {| Short := short; Robust := Robust info; ActorCid := "" |})
    (GetShortAddress d add a).
Proof.
  change (storeRobustAddress (S d) add info a) with
    ((r <- GetShortAddress d add;;
      match r with
      | Err err => ret (Some err)
      | Ok shortAddress =>
          _ <- offline_StoreAddressInfo
                {| Short := shortAddress; Robust := Robust info; ActorCid := "" |};;
          ret None
      end) a).
  unfold bind at 1.
  destruct (GetShortAddress d add a) as [[[v|e]|] a']; reflexivity.
Qed.

Lemma storeActorCode_S d add info a :
  storeActorCode (S d) add info a =
  then_store (λ short, {| Short := short; Robust := ""; ActorCid := ActorCid info |})
    (GetShortAddress d add a).
Proof.
  unfold storeActorCode. unfold bind at 1.
  destruct (GetShortAddress d add a) as [[[v|e]|] a']; reflexivity.
Qed.

Lemma GetActorCode_S d add key a :
  GetActorCode (S d) add key a =
  match impl_GetActorCode (offlineCache a) add key with
  | Ok code => (Some (Ok code), record (EvGetActorCode Offline add key) a)
  | Err _ =>
      match impl_GetActorCode (onChainCache a) add key with
      | Err e =>
          (Some (Err e),
           record (EvGetActorCode OnChain add key) (record (EvGetActorCode Offline add key) a))
      | Ok code =>
          lift_error code
            (storeActorCode d add {| Short := ""; Robust := ""; ActorCid := code |}
               (record (EvGetActorCode OnChain add key) (record (EvGetActorCode Offline add key) a)))
      end
  end.
Proof.
  unfold GetActorCode. unfold bind at 1, offline_GetActorCode.
  destruct (impl_GetActorCode (offlineCache a) add key); [reflexivity|].
  unfold bind at 1, onChain_GetActorCode. cbv zeta.
  cbn [offlineCache onChainCache record].
  destruct (impl_GetActorCode (onChainCache a) add key); [|reflexivity].
  unfold bind.
  destruct (storeActorCode _ _ _ _) as [[[x|]|] a']; reflexivity.
Qed.

(** *** The resolver is never written to and the log only grows *)

Lemma extends_refl a : extends a a.
Proof. split; [done|]. exists []. by rewrite app_nil_r. Qed.

Lemma extends_trans a1 a2 a3 : extends a1 a2 → extends a2 a3 → extends a1 a3.
Proof.
  intros [H1 [r1 Hr1]] [H2 [r2 Hr2]]. split; [congruence|].
  exists (r1 ++ r2). by rewrite Hr2, Hr1, app_assoc.
Qed.

Lemma extends_record e a : extends a (record e a).
Proof. split; [done|]. by exists [e]. Qed.

Lemma extends_stored info a : extends a (stored info a).
Proof. split; [done|]. by exists [EvStoreAddressInfo info]. Qed.

Lemma snd_lift_error v (out : option (option error) * ActorsCache Off On) :
  snd (lift_error v out) = snd out.
Proof. by destruct out as [[[x|]|] a']. Qed.

Lemma extends_then_store mk a (out : option result * ActorsCache Off On) :
  extends a (snd out) → extends a (snd (then_store mk out)).
Proof.
  destruct out as [[[v|e]|] a']; cbn; [|done..].
  intros Hx. eapply extends_trans; [exact Hx|apply extends_stored].
Qed.

Lemma address_lookups_extend d :
  ∀ add a,
    extends a (snd (GetShortAddress d add a)) ∧
    (∀ info, extends a (snd (storeShortAddress d add info a))) ∧
    extends a (snd (GetRobustAddress d add a)) ∧
    (∀ info, extends a (snd (storeRobustAddress d add info a))).
Proof.
  induction d as [|d IH]; intros add a.
  - split; [|split; [|split]]; try intros info; apply extends_refl.
  - split; [|split; [|split]]; try intros info.
    + rewrite GetShortAddress_S. cbv zeta.
      destruct (impl_GetShortAddress (offlineCache a) add); [apply extends_record|].
      assert (extends a (record (EvGetShortAddress OnChain add)
                           (record (EvGetShortAddress Offline add) a))) as Hx
        by (eapply extends_trans; apply extends_record).
      destruct (impl_GetShortAddress (onChainCache a) add); [|exact Hx].
      rewrite snd_lift_error. eapply extends_trans; [exact Hx|]. apply IH.
    + rewrite storeShortAddress_S. apply extends_then_store, IH.
    + rewrite GetRobustAddress_S.
      destruct (SystemActorsId !! address_String add); [apply extends_refl|]. cbv zeta.
      destruct (impl_GetRobustAddress (offlineCache a) add); [apply extends_record|].
      assert (extends a (record (EvGetRobustAddress OnChain add)
                           (record (EvGetRobustAddress Offline add) a))) as Hx
        by (eapply extends_trans; apply extends_record).
      destruct (impl_GetRobustAddress (onChainCache a) add); [|exact Hx].
      rewrite snd_lift_error. eapply extends_trans; [exact Hx|]. apply IH.
    + rewrite storeRobustAddress_S. apply extends_then_store, IH.
Qed.

Lemma GetShortAddress_extends d add a : extends a (snd (GetShortAddress d add a)).
Proof. apply address_lookups_extend. Qed.

Lemma GetRobustAddress_extends d add a : extends a (snd (GetRobustAddress d add a)).
Proof. apply address_lookups_extend. Qed.

Lemma storeActorCode_extends d add info a :
  extends a (snd (storeActorCode d add info a)).
Proof.
  destruct d as [|d]; [apply extends_refl|].
  rewrite storeActorCode_S. apply extends_then_store, GetShortAddress_extends.
Qed.

Lemma GetActorCode_extends d add key a : extends a (snd (GetActorCode d add key a)).
Proof.
  destruct d as [|d]; [apply extends_refl|].
  rewrite GetActorCode_S. cbv zeta.
  destruct (impl_GetActorCode (offlineCache a) add key); [apply extends_record|].
  assert (extends a (record (EvGetActorCode OnChain add key)
                       (record (EvGetActorCode Offline add key) a))) as Hx
    by (eapply extends_trans; apply extends_record).
  destruct (impl_GetActorCode (onChainCache a) add key); [|exact Hx].
  rewrite snd_lift_error. eapply extends_trans; [exact Hx|].
  apply storeActorCode_extends.
Qed.

(** *** The descent of a cold, resolvable identity *)

Lemma onchain_queries_app l1 l2 :
  onchain_queries (l1 ++ l2) = onchain_queries l1 + onchain_queries l2.
Proof. unfold onchain_queries. by rewrite filter_app, length_app. Qed.

Lemma onchain_queries_snoc l e :
  onchain_queries (l ++ [e]) = onchain_queries l + (if is_onchain e then 1 else 0).
Proof. rewrite onchain_queries_app. f_equal. by destruct e as [[]| []|[]|]. Qed.

(** With neither address form in the store, both known to the node, and
    the identity outside [SystemActorsId], the two lookups call each
    other until the stack is gone; the store is never written and every
    second frame costs one query. *)
Lemma cold_descent d :
  ∀ add a,
    SystemActorsId !! address_String add = None →
    is_Ok (impl_GetShortAddress (offlineCache a) add) = false →
    is_Ok (impl_GetRobustAddress (offlineCache a) add) = false →
    is_Ok (impl_GetShortAddress (onChainCache a) add) = true →
    is_Ok (impl_GetRobustAddress (onChainCache a) add) = true →
    (∃ a', GetShortAddress d add a = (None, a') ∧
           offlineCache a' = offlineCache a ∧ onChainCache a' = onChainCache a ∧
           onchain_queries (calls a') = onchain_queries (calls a) + Nat.div2 (S d)) ∧
    (∃ a', GetRobustAddress d add a = (None, a') ∧
           offlineCache a' = offlineCache a ∧ onChainCache a' = onChainCache a ∧
           onchain_queries (calls a') = onchain_queries (calls a) + Nat.div2 (S d)).
Proof.
  induction d as [d IH] using lt_wf_ind. intros add a Hsys HoS HoR HnS HnR.
  destruct d as [|[|d]].
  - split; exists a; cbn; repeat split; lia.
  - split.
    + rewrite GetShortAddress_S. cbv zeta.
      destruct (impl_GetShortAddress (offlineCache a) add); [done|].
      destruct (impl_GetShortAddress (onChainCache a) add); [|done].
      cbn [lift_error storeShortAddress storeRobustAddress overflow].
      eexists. split; [reflexivity|]. cbn [record offlineCache onChainCache calls].
      repeat split. rewrite !onchain_queries_snoc. cbn. lia.
    + rewrite GetRobustAddress_S, Hsys. cbv zeta.
      destruct (impl_GetRobustAddress (offlineCache a) add); [done|].
      destruct (impl_GetRobustAddress (onChainCache a) add); [|done].
      cbn [lift_error storeShortAddress storeRobustAddress overflow].
      eexists. split; [reflexivity|]. cbn [record offlineCache onChainCache calls].
      repeat split. rewrite !onchain_queries_snoc. cbn. lia.
  - split.
    + rewrite GetShortAddress_S. cbv zeta.
      destruct (impl_GetShortAddress (offlineCache a) add) eqn:E1; [done|].
      destruct (impl_GetShortAddress (onChainCache a) add) eqn:E2; [|done].
      rewrite storeShortAddress_S.
      set (a2 := record _ (record _ a)).
      destruct (IH d ltac:(lia) add a2) as [_ (a' & Hr & Hoff & Hon & Hq)];
        [done|by subst a2; cbn; rewrite ?E1, ?E2..|].
      rewrite Hr. cbn [then_store lift_error]. exists a'. repeat split; [done..|].
      rewrite Hq. subst a2. cbn [record calls].
      rewrite !onchain_queries_snoc. cbn. lia.
    + rewrite GetRobustAddress_S, Hsys. cbv zeta.
      destruct (impl_GetRobustAddress (offlineCache a) add) eqn:E1; [done|].
      destruct (impl_GetRobustAddress (onChainCache a) add) eqn:E2; [|done].
      rewrite storeRobustAddress_S.
      set (a2 := record _ (record _ a)).
      destruct (IH d ltac:(lia) add a2) as [(a' & Hr & Hoff & Hon & Hq) _];
        [done|by subst a2; cbn; rewrite ?E1, ?E2..|].
      rewrite Hr. cbn [then_store lift_error]. exists a'. repeat split; [done..|].
      rewrite Hq. subst a2. cbn [record calls].
      rewrite !onchain_queries_snoc. cbn. lia.
Qed.

(** *** Every return of a method is the one read off the tiers *)

Lemma GetShortAddress_outcome d add a r a' :
  GetShortAddress d add a = (Some r, a') →
  short_outcome (offlineCache a) (onChainCache a) add = Some (r, offlineCache a').
Proof.
  intros Hrun. unfold short_outcome.
  destruct (impl_GetShortAddress (offlineCache a) add) as [s|e1] eqn:E1.
  { destruct d as [|d]; [discriminate|].
    rewrite GetShortAddress_S, E1 in Hrun. by inversion Hrun. }
  destruct (impl_GetShortAddress (onChainCache a) add) as [s|e2] eqn:E2; cycle 1.
  { destruct d as [|d]; [discriminate|].
    rewrite GetShortAddress_S, E1, E2 in Hrun. by inversion Hrun. }
  destruct (is_system add) eqn:Es.
  { apply is_system_true in Es as [b Hb].
    destruct d as [|[|[|d]]]; [discriminate|..];
      rewrite GetShortAddress_S, E1, E2 in Hrun; [discriminate|..];
      rewrite storeShortAddress_S in Hrun; [discriminate|].
    rewrite GetRobustAddress_S, Hb in Hrun. by inversion Hrun. }
  apply is_system_false in Es.
  destruct (impl_GetRobustAddress (offlineCache a) add) as [r'|e3] eqn:E3.
  { destruct d as [|[|[|d]]]; [discriminate|..];
      rewrite GetShortAddress_S, E1, E2 in Hrun; [discriminate|..];
      rewrite storeShortAddress_S in Hrun; [discriminate|].
    rewrite GetRobustAddress_S, Es in Hrun. cbn in Hrun.
    rewrite E3 in Hrun. by inversion Hrun. }
  destruct (impl_GetRobustAddress (onChainCache a) add) as [r'|e4] eqn:E4; cycle 1.
  { destruct d as [|[|[|d]]]; [discriminate|..];
      rewrite GetShortAddress_S, E1, E2 in Hrun; [discriminate|..];
      rewrite storeShortAddress_S in Hrun; [discriminate|].
    rewrite GetRobustAddress_S, Es in Hrun. cbn in Hrun.
    rewrite E3, E4 in Hrun. by inversion Hrun. }
  destruct (cold_descent d add a) as [(a'' & Hdiv & _) _];
    rewrite ?E1, ?E2, ?E3, ?E4; try done.
  congruence.
Qed.

Lemma GetRobustAddress_outcome d add a r a' :
  GetRobustAddress d add a = (Some r, a') →
  robust_outcome (offlineCache a) (onChainCache a) add = Some (r, offlineCache a').
Proof.
  intros Hrun. unfold robust_outcome.
  destruct (is_system add) eqn:Es.
  { apply is_system_true in Es as [b Hb].
    destruct d as [|d]; [discriminate|].
    rewrite GetRobustAddress_S, Hb in Hrun. by inversion Hrun. }
  apply is_system_false in Es.
  destruct (impl_GetRobustAddress (offlineCache a) add) as [s|e1] eqn:E1.
  { destruct d as [|d]; [discriminate|].
    rewrite GetRobustAddress_S, Es, E1 in Hrun. by inversion Hrun. }
  destruct (impl_GetRobustAddress (onChainCache a) add) as [s|e2] eqn:E2; cycle 1.
  { destruct d as [|d]; [discriminate|].
    rewrite GetRobustAddress_S, Es, E1, E2 in Hrun. by inversion Hrun. }
  destruct (impl_GetShortAddress (offlineCache a) add) as [s'|e3] eqn:E3.
  { destruct d as [|[|[|d]]]; [discriminate|..];
      rewrite GetRobustAddress_S, Es, E1, E2 in Hrun; [discriminate|..];
      rewrite storeRobustAddress_S in Hrun; [discriminate|].
    rewrite GetShortAddress_S in Hrun. cbn in Hrun.
    rewrite E3 in Hrun. by inversion Hrun. }
  destruct (impl_GetShortAddress (onChainCache a) add) as [s'|e4] eqn:E4; cycle 1.
  { destruct d as [|[|[|d]]]; [discriminate|..];
      rewrite GetRobustAddress_S, Es, E1, E2 in Hrun; [discriminate|..];
      rewrite storeRobustAddress_S in Hrun; [discriminate|].
    rewrite GetShortAddress_S in Hrun. cbn in Hrun.
    rewrite E3, E4 in Hrun. by inversion Hrun. }
  destruct (cold_descent d add a) as [_ (a'' & Hdiv & _)];
    rewrite ?E1, ?E2, ?E3, ?E4; try done.
  congruence.
Qed.

Lemma GetActorCode_outcome d add key a r a' :
  GetActorCode d add key a = (Some r, a') →
  code_outcome (offlineCache a) (onChainCache a) add key = Some (r, offlineCache a').
Proof.
  intros Hrun. unfold code_outcome.
  destruct d as [|d]; [discriminate|]. rewrite GetActorCode_S in Hrun. cbv zeta in Hrun.
  destruct (impl_GetActorCode (offlineCache a) add key) as [c|e1]; [by inversion Hrun|].
  destruct (impl_GetActorCode (onChainCache a) add key) as [c|e2]; [|by inversion Hrun].
  destruct d as [|d]; [discriminate|]. rewrite storeActorCode_S in Hrun.
  destruct (GetShortAddress d add _) as [[r2|] a2] eqn:E; [|discriminate].
  apply GetShortAddress_outcome in E. cbn in E. rewrite E.
  destruct r2; by inversion Hrun.
Qed.

Lemma resolve_outcome f d add a r a' :
  resolve f d add a = (Some r, a') →
  outcome f (offlineCache a) (onChainCache a) add = Some (r, offlineCache a').
Proof.
  destruct f; cbn;
    [apply GetActorCode_outcome|apply GetRobustAddress_outcome|apply GetShortAddress_outcome].
Qed.

(** *** Every outcome read off the tiers is returned, given the frames *)

Lemma short_outcome_run d add a r off' :
  short_outcome (offlineCache a) (onChainCache a) add = Some (r, off') →
  short_frames (offlineCache a) (onChainCache a) add ≤ d →
  ∃ a', GetShortAddress d add a = (Some r, a') ∧ offlineCache a' = off'.
Proof.
  unfold short_outcome, short_frames. intros Hout Hd.
  destruct d as [|d]; [by repeat case_match; lia|]. rewrite GetShortAddress_S.
  destruct (impl_GetShortAddress (offlineCache a) add) as [s|e1].
  { inversion Hout; subst. by eexists. }
  destruct (impl_GetShortAddress (onChainCache a) add) as [s|e2]; cycle 1.
  { inversion Hout; subst. by eexists. }
  destruct d as [|[|d]]; [lia..|].
  rewrite storeShortAddress_S, GetRobustAddress_S.
  destruct (is_system add) eqn:Es.
  { apply is_system_true in Es as [b ->]. inversion Hout; subst. by eexists. }
  apply is_system_false in Es. rewrite Es. cbn [record offlineCache onChainCache].
  destruct (impl_GetRobustAddress (offlineCache a) add) as [r'|e3].
  { inversion Hout; subst. by eexists. }
  destruct (impl_GetRobustAddress (onChainCache a) add) as [r'|e4]; [done|].
  inversion Hout; subst. by eexists.
Qed.

Lemma robust_outcome_run d add a r off' :
  robust_outcome (offlineCache a) (onChainCache a) add = Some (r, off') →
  robust_frames (offlineCache a) (onChainCache a) add ≤ d →
  ∃ a', GetRobustAddress d add a = (Some r, a') ∧ offlineCache a' = off'.
Proof.
  unfold robust_outcome, robust_frames. intros Hout Hd.
  destruct d as [|d]; [by repeat case_match; lia|]. rewrite GetRobustAddress_S.
  destruct (is_system add) eqn:Es.
  { apply is_system_true in Es as [b ->]. inversion Hout; subst. by eexists. }
  apply is_system_false in Es. rewrite Es.
  destruct (impl_GetRobustAddress (offlineCache a) add) as [s|e1].
  { inversion Hout; subst. by eexists. }
  destruct (impl_GetRobustAddress (onChainCache a) add) as [s|e2]; cycle 1.
  { inversion Hout; subst. by eexists. }
  destruct d as [|[|d]]; [lia..|].
  rewrite storeRobustAddress_S, GetShortAddress_S. cbn [record offlineCache onChainCache].
  destruct (impl_GetShortAddress (offlineCache a) add) as [s'|e3].
  { inversion Hout; subst. by eexists. }
  destruct (impl_GetShortAddress (onChainCache a) add) as [s'|e4]; [done|].
  inversion Hout; subst. by eexists.
Qed.

Lemma code_outcome_run d add key a r off' :
  code_outcome (offlineCache a) (onChainCache a) add key = Some (r, off') →
  code_frames (offlineCache a) (onChainCache a) add key ≤ d →
  ∃ a', GetActorCode d add key a = (Some r, a') ∧ offlineCache a' = off'.
Proof.
  unfold code_outcome, code_frames. intros Hout Hd.
  destruct d as [|d]; [by repeat case_match; lia|]. rewrite GetActorCode_S.
  destruct (impl_GetActorCode (offlineCache a) add key) as [c|e1].
  { inversion Hout; subst. by eexists. }
  destruct (impl_GetActorCode (onChainCache a) add key) as [c|e2]; cycle 1.
  { inversion Hout; subst. by eexists. }
  destruct d as [|d]; [lia|]. rewrite storeActorCode_S.
  set (a2 := record _ (record _ a)).
  destruct (short_outcome (offlineCache a) (onChainCache a) add) as [[r2 off2]|] eqn:E;
    [|done].
  destruct (short_outcome_run d add a2 r2 off2 E) as (a3 & -> & Hoff);
    [cbn [plus] in Hd; subst a2; cbn [record offlineCache onChainCache]; lia|].
  destruct r2; inversion Hout; subst; by eexists.
Qed.

Lemma outcome_run f d add a r off' :
  outcome f (offlineCache a) (onChainCache a) add = Some (r, off') →
  frames f (offlineCache a) (onChainCache a) add ≤ d →
  ∃ a', resolve f d add a = (Some r, a') ∧ offlineCache a' = off'.
Proof.
  destruct f; cbn [outcome resolve frames].
  - apply code_outcome_run.
  - apply robust_outcome_run.
  - apply short_outcome_run.
Qed.

(** A call that returns had the frames of its path. *)
Lemma GetShortAddress_frames d add a r a' :
  GetShortAddress d add a = (Some r, a') →
  short_frames (offlineCache a) (onChainCache a) add ≤ d.
Proof.
  unfold short_frames. intros Hrun.
  destruct d as [|d]; [discriminate|]. rewrite GetShortAddress_S in Hrun.
  destruct (impl_GetShortAddress (offlineCache a) add) as [s|e1]; [lia|].
  destruct (impl_GetShortAddress (onChainCache a) add) as [s|e2]; [|lia].
  destruct d as [|d]; [discriminate|]. rewrite storeShortAddress_S in Hrun.
  destruct d as [|d]; [discriminate|]. lia.
Qed.

Lemma GetRobustAddress_frames d add a r a' :
  GetRobustAddress d add a = (Some r, a') →
  robust_frames (offlineCache a) (onChainCache a) add ≤ d.
Proof.
  unfold robust_frames. intros Hrun.
  destruct d as [|d]; [discriminate|]. rewrite GetRobustAddress_S in Hrun.
  destruct (is_system add) eqn:Es; [lia|].
  apply is_system_false in Es. rewrite Es in Hrun.
  destruct (impl_GetRobustAddress (offlineCache a) add) as [s|e1]; [lia|].
  destruct (impl_GetRobustAddress (onChainCache a) add) as [s|e2]; [|lia].
  destruct d as [|d]; [discriminate|]. rewrite storeRobustAddress_S in Hrun.
  destruct d as [|d]; [discriminate|]. lia.
Qed.

Lemma GetActorCode_frames d add key a r a' :
  GetActorCode d add key a = (Some r, a') →
  code_frames (offlineCache a) (onChainCache a) add key ≤ d.
Proof.
  unfold code_frames. intros Hrun.
  destruct d as [|d]; [discriminate|]. rewrite GetActorCode_S in Hrun.
  destruct (impl_GetActorCode (offlineCache a) add key) as [c|e1]; [lia|].
  destruct (impl_GetActorCode (onChainCache a) add key) as [c|e2]; [|lia].
  destruct d as [|d]; [discriminate|]. rewrite storeActorCode_S in Hrun.
  destruct (GetShortAddress d add _) as [[r2|] a2] eqn:E; [|discriminate].
  apply GetShortAddress_frames in E. cbn [record offlineCache onChainCache] in E.
  cbn [plus]. lia.
Qed.

Lemma resolve_frames f d add a r a' :
  resolve f d add a = (Some r, a') →
  frames f (offlineCache a) (onChainCache a) add ≤ d.
Proof.
  destruct f; cbn [resolve frames];
    [apply GetActorCode_frames|apply GetRobustAddress_frames|apply GetShortAddress_frames].
Qed.

(** A resolve operation whose outcome is undefined never returns. *)
Lemma no_outcome_no_return f d add a :
  outcome f (offlineCache a) (onChainCache a) add = None →
  fst (resolve f d add a) = None.
Proof.
  intros Hout. destruct (resolve f d add a) as [[r|] a'] eqn:E; [|done].
  apply resolve_outcome in E. congruence.
Qed.

(** *** Cold resolution *)

(** The descent seen from each of the three operations. *)
Lemma cold_resolution_diverges f d add a :
  SystemActorsId !! address_String add = None →
  is_Ok (tier_answer f (offlineCache a) add) = false →
  is_Ok (tier_answer f (onChainCache a) add) = true →
  is_Ok (impl_GetShortAddress (offlineCache a) add) = false →
  is_Ok (impl_GetRobustAddress (offlineCache a) add) = false →
  is_Ok (impl_GetShortAddress (onChainCache a) add) = true →
  is_Ok (impl_GetRobustAddress (onChainCache a) add) = true →
  ∃ a', resolve f d add a = (None, a') ∧
        offlineCache a' = offlineCache a ∧
        onchain_queries (calls a') = onchain_queries (calls a) + Nat.div2 (S d).
Proof.
  intros Hsys Hoff Hon HoS HoR HnS HnR. destruct f as [key| |]; cbn [resolve].
  - cbn [tier_answer] in Hoff, Hon. destruct d as [|[|d]].
    + exists a. cbn. repeat split; lia.
    + rewrite GetActorCode_S.
      destruct (impl_GetActorCode (offlineCache a) add key); [done|].
      destruct (impl_GetActorCode (onChainCache a) add key); [|done].
      cbn [lift_error storeActorCode overflow].
      eexists. split; [reflexivity|]. cbn [record offlineCache onChainCache calls].
      split; [done|]. rewrite !onchain_queries_snoc. cbn. lia.
    + rewrite GetActorCode_S.
      destruct (impl_GetActorCode (offlineCache a) add key); [done|].
      destruct (impl_GetActorCode (onChainCache a) add key); [|done].
      rewrite storeActorCode_S.
      set (a2 := record _ (record _ a)).
      destruct (cold_descent d add a2) as [(a' & Hr & Hoff' & _ & Hq) _]; [done..|].
      rewrite Hr. cbn [then_store lift_error]. exists a'. repeat split; [done|].
      rewrite Hq. subst a2. cbn [record calls].
      rewrite !onchain_queries_snoc. cbn. destruct d as [|d]; lia.
  - destruct (cold_descent d add a) as [_ (a' & Hr & Hoff' & _ & Hq)]; [done..|].
    by exists a'.
  - destruct (cold_descent d add a) as [(a' & Hr & Hoff' & _ & Hq) _]; [done..|].
    by exists a'.
Qed.

(** *** The three resolve operations, uniformly *)

Lemma storeShortAddress_extends d add info a :
  extends a (snd (storeShortAddress d add info a)).
Proof. apply address_lookups_extend. Qed.

Lemma storeRobustAddress_extends d add info a :
  extends a (snd (storeRobustAddress d add info a)).
Proof. apply address_lookups_extend. Qed.

Lemma write_back_extends f d add v a : extends a (snd (write_back f d add v a)).
Proof.
  destruct f; cbn [write_back];
    [apply storeActorCode_extends|apply storeRobustAddress_extends
    |apply storeShortAddress_extends].
Qed.

(** One step of any of the three operations. *)
Lemma resolve_S f d add a :
  resolve f (S d) add a =
  if short_circuits f add then (Some (Ok (address_String add)), a)
  else
    match tier_answer f (offlineCache a) add with
    | Ok v => (Some (Ok v), record (query Offline f add) a)
    | Err _ =>
        match tier_answer f (onChainCache a) add with
        | Err e => (Some (Err e), asked_both f add a)
        | Ok v => lift_error v (write_back f d add v (asked_both f add a))
        end
    end.
Proof.
  destruct f as [key| |]; cbn [resolve short_circuits tier_answer query write_back asked_both].
  - apply GetActorCode_S.
  - rewrite GetRobustAddress_S. destruct (is_system add) eqn:Es.
    + by apply is_system_true in Es as [b ->].
    + by apply is_system_false in Es as ->.
  - apply GetShortAddress_S.
Qed.

Lemma write_back_S f d add v a :
  write_back f (S d) add v a =
  then_store (λ w, match f with
                   | FCode _ => {| Short := w; Robust := ""; ActorCid := v |}
                   | FRobust => {| Short := w; Robust := v; ActorCid := "" |}
                   | FShort => {| Short := v; Robust := w; ActorCid := "" |}
                   end)
    (resolve (complement f) d add a).
Proof.
  destruct f; cbn [write_back complement resolve];
    [apply storeActorCode_S|apply storeRobustAddress_S|apply storeShortAddress_S].
Qed.

(** C2.  For every identity in SystemActorsId, GetRobustAddress returns
    that identity unchanged; the cache it leaves is the cache it was
    given, call log included: neither the On-Chain Resolver nor the
    Offline Store was called, and nothing was written. *)
Theorem GetRobustAddress_system_actor depth add a :
  is_Some (SystemActorsId !! address_String add) →
  GetRobustAddress (S depth) add a = (Some (Ok (address_String add)), a).
Proof. intros [b Hb]. by rewrite GetRobustAddress_S, Hb. Qed.

(** C10.  GetShortAddress and GetActorCode do not look at SystemActorsId.
    For an identity of that list a call of either is, in full, the step
    every identity gets: the Offline Store is asked first and its facet
    returned as it is; on a miss the On-Chain Resolver is asked next; its
    error is the operation's error, and its facet goes through the
    operation's write-back, whose outcome alone decides between that facet
    and an error.  The log shows the two questions in that order. *)
Theorem system_actor_still_resolved f depth add a :
  f ≠ FRobust →
  is_Some (SystemActorsId !! address_String add) →
  resolve f (S depth) add a =
    match tier_answer f (offlineCache a) add with
    | Ok v => (Some (Ok v), record (query Offline f add) a)
    | Err _ =>
        match tier_answer f (onChainCache a) add with
        | Err e => (Some (Err e), asked_both f add a)
        | Ok v => lift_error v (write_back f depth add v (asked_both f add a))
        end
    end ∧
  match tier_answer f (offlineCache a) add with
  | Ok v =>
      resolve f (S depth) add a = (Some (Ok v), record (query Offline f add) a)
  | Err _ =>
      (∃ rest, calls (snd (resolve f (S depth) add a)) =
               calls a ++ query Offline f add :: query OnChain f add :: rest) ∧
      (∀ e, tier_answer f (onChainCache a) add = Err e →
            fst (resolve f (S depth) add a) = Some (Err e))
  end.
Proof.
  intros Hf _. rewrite resolve_S.
  assert (short_circuits f add = false) as -> by by destruct f.
  split; [done|].
  destruct (tier_answer f (offlineCache a) add) as [v|e1]; [done|].
  destruct (tier_answer f (onChainCache a) add) as [v|e2].
  - split; [|done]. rewrite snd_lift_error.
    destruct (write_back_extends f depth add v (asked_both f add a)) as [_ [rest Hrest]].
    exists rest. rewrite Hrest. cbn [asked_both record calls].
    by rewrite <- !app_assoc.
  - split; [|by intros ? [= ->]]. exists []. cbn [asked_both record calls snd].
    by rewrite <- !app_assoc.
Qed.

(** C3, as the code has it.  GetRobustAddress on an identity of
    SystemActorsId returns the identity without asking either tier.
    Otherwise a resolve operation returns the Offline Store's facet
    whenever the store produces it, and fails with the resolver's error
    when neither tier produces it.  When only the On-Chain Resolver
    produces the facet the operation runs its write-back, which first
    resolves the complementary facet through the cache: the operation
    returns the resolver's facet exactly when that resolution succeeds, and
    fails, with the same error, exactly when that resolution fails. *)
Theorem resolve_failure_semantics f depth add a :
  if short_circuits f add then
    resolve f (S depth) add a = (Some (Ok (address_String add)), a)
  else
    match tier_answer f (offlineCache a) add, tier_answer f (onChainCache a) add with
    | Ok v, _ => fst (resolve f (S depth) add a) = Some (Ok v)
    | Err _, Err e => fst (resolve f (S depth) add a) = Some (Err e)
    | Err _, Ok v =>
        ∀ r, fst (resolve f (S depth) add a) = Some r ↔
             match r with
             | Ok v' =>
                 v' = v ∧
                 ∃ w, fst (resolve (complement f) (pred depth) add (asked_both f add a))
                      = Some (Ok w)
             | Err e =>
                 fst (resolve (complement f) (pred depth) add (asked_both f add a))
                 = Some (Err e)
             end
    end.
Proof.
  rewrite resolve_S. destruct (short_circuits f add); [done|].
  destruct (tier_answer f (offlineCache a) add) as [v|e1]; [done|].
  destruct (tier_answer f (onChainCache a) add) as [v|e2]; [|done].
  intros r. destruct depth as [|d].
  { destruct f, r; cbn; naive_solver. }
  rewrite write_back_S. cbn [pred].
  destruct (resolve (complement f) d add (asked_both f add a)) as [[[w|e]|] a'];
    destruct r; cbn; naive_solver.
Qed.

End CacheProperties.

(** * Properties of the offline store *)

Section MemoryProperties.

Implicit Types (m : Memory) (info : AddressInfo) (id : string) (n : FacetName).

Lemma pick_nonempty stored incoming :
  pick stored incoming ≠ "" ↔ stored ≠ "" ∨ incoming ≠ "".
Proof. unfold pick. destruct (decide (incoming = "")); naive_solver. Qed.

Lemma pick_again stored incoming : pick (pick stored incoming) incoming = pick stored incoming.
Proof. unfold pick. by case_decide. Qed.

Lemma pick_empty stored : pick stored "" = stored.
Proof. done. Qed.

Lemma facet_merge n stored incoming :
  facet n (merge stored incoming) = pick (facet n stored) (facet n incoming).
Proof. by destruct n. Qed.

Lemma merge_again stored incoming : merge (merge stored incoming) incoming = merge stored incoming.
Proof. unfold merge. cbn. by rewrite !pick_again. Qed.

Lemma Memory_record_store info m id :
  Memory_record (Memory_StoreAddressInfo info m) id =
  if decide (Short info = id) then merge (Memory_record m id) info else Memory_record m id.
Proof.
  unfold Memory_record, Memory_StoreAddressInfo. case_decide as Hid.
  - subst id. by rewrite lookup_insert_eq.
  - by rewrite lookup_insert_ne.
Qed.

Lemma facet_store n info m id :
  facet n (Memory_record (Memory_StoreAddressInfo info m) id) =
  if decide (Short info = id) then pick (facet n (Memory_record m id)) (facet n info)
  else facet n (Memory_record m id).
Proof. rewrite Memory_record_store. case_decide; [apply facet_merge|done]. Qed.

Lemma facet_store_all n puts m id :
  facet n (Memory_record (Memory_store_all puts m) id) =
  latest n id (facet n (Memory_record m id)) puts.
Proof.
  revert m. induction puts as [|info puts IH]; intros m; [done|].
  cbn. unfold Memory_store_all in IH. rewrite IH. unfold latest. f_equal.
  apply facet_store.
Qed.

Lemma latest_nonempty n id before puts :
  latest n id before puts ≠ "" ↔
  before ≠ "" ∨ ∃ info, info ∈ puts ∧ Short info = id ∧ facet n info ≠ "".
Proof.
  revert before. induction puts as [|info puts IH]; intros before.
  - cbn. setoid_rewrite elem_of_nil. naive_solver.
  - unfold latest in IH |- *. cbn [foldl]. rewrite IH. setoid_rewrite elem_of_cons.
    case_decide; [rewrite pick_nonempty|]; naive_solver.
Qed.

(** C4.  After any run of partial writes, a facet of the record kept for an
    identity is non-empty exactly when it was non-empty before the run or
    some write of the run for that identity supplied it; it then holds the
    value supplied last.  In particular no write, whatever it leaves empty,
    empties a facet that was stored. *)
Theorem merge_never_erases puts m id n :
  (facet n (Memory_record (Memory_store_all puts m) id) ≠ "" ↔
   facet n (Memory_record m id) ≠ "" ∨
   ∃ info, info ∈ puts ∧ Short info = id ∧ facet n info ≠ "") ∧
  facet n (Memory_record (Memory_store_all puts m) id)
  = latest n id (facet n (Memory_record m id)) puts ∧
  (facet n (Memory_record m id) ≠ "" →
   facet n (Memory_record (Memory_store_all puts m) id) ≠ "").
Proof.
  rewrite facet_store_all. split_and!; [apply latest_nonempty|done|].
  intros Hstored. apply latest_nonempty. by left.
Qed.

Lemma store_absorbed info m : absorbed info m → Memory_StoreAddressInfo info m = m.
Proof.
  intros (rec & Hrec & Hmerge). unfold Memory_StoreAddressInfo.
  rewrite Hrec. cbn. rewrite Hmerge. by apply insert_id.
Qed.

Lemma absorbed_store info m : absorbed info (Memory_StoreAddressInfo info m).
Proof.
  eexists. split; [apply lookup_insert_eq|]. apply merge_again.
Qed.

Lemma store_twice info m :
  Memory_StoreAddressInfo info (Memory_StoreAddressInfo info m)
  = Memory_StoreAddressInfo info m.
Proof. apply store_absorbed, absorbed_store. Qed.

Lemma store_fixed_absorbed info m : Memory_StoreAddressInfo info m = m → absorbed info m.
Proof.
  intros Hfix. pose proof (absorbed_store info m) as Habs. by rewrite Hfix in Habs.
Qed.

Lemma merge_fixed stored incoming :
  merge stored incoming = stored ↔
  ∀ n, pick (facet n stored) (facet n incoming) = facet n stored.
Proof.
  split.
  - intros Hfix n. by rewrite <- facet_merge, Hfix.
  - intros Hfix. destruct stored as [s r c]. unfold merge. cbn.
    f_equal; [apply (Hfix NShort)|apply (Hfix NRobust)|apply (Hfix NActorCid)].
Qed.

(** A write stays absorbed after another write that agrees with it
    wherever both bring a facet. *)
Lemma absorbed_store_other info other m :
  absorbed info m →
  (∀ n, facet n other = "" ∨ facet n info = "" ∨ facet n other = facet n info) →
  absorbed info (Memory_StoreAddressInfo other m).
Proof.
  intros (rec & Hrec & Hfix) Hagree. unfold absorbed, Memory_StoreAddressInfo.
  destruct (decide (Short other = Short info)) as [Hkey|Hkey].
  - rewrite Hkey, lookup_insert_eq, Hrec. eexists. split; [done|]. cbn.
    apply merge_fixed. intros n. rewrite facet_merge.
    pose proof (proj1 (merge_fixed _ _) Hfix n) as Hn.
    destruct (Hagree n) as [Ho|[Hi|Ho]].
    + by rewrite Ho.
    + by rewrite Hi.
    + rewrite Ho. apply pick_again.
  - rewrite lookup_insert_ne by done. by exists rec.
Qed.

Lemma found_Ok x v : found x = Ok v → x = v ∧ v ≠ "".
Proof. unfold found. case_decide; naive_solver. Qed.

Lemma found_Err x e : found x = Err e → x = "".
Proof. unfold found. by case_decide. Qed.

Lemma found_nonempty x : x ≠ "" → found x = Ok x.
Proof. unfold found. by case_decide. Qed.

Lemma found_empty : found "" = Err ErrKeyNotFound.
Proof. done. Qed.

Lemma pick_nonempty_r stored incoming : incoming ≠ "" → pick stored incoming = incoming.
Proof. unfold pick. by case_decide. Qed.

Lemma pick_same x : pick x x = x.
Proof. unfold pick. by case_decide. Qed.

(** *** A second call finds the store settled *)

Context {On : Type} `{!IActorsCache On}.

Implicit Types (on : On) (add : Address).

Lemma short_outcome_settled m on add r m1 :
  short_outcome m on add = Some (r, m1) →
  short_outcome m1 on add = Some (r, m1).
Proof.
  unfold short_outcome.
  cbn [impl_GetShortAddress impl_GetRobustAddress impl_StoreAddressInfo Memory_IActorsCache].
  unfold Memory_GetShortAddress, Memory_GetRobustAddress.
  set (id := address_String add). intros Hout.
  destruct (found (Short (Memory_record m id))) as [s0|e0] eqn:E1.
  { inversion Hout; subst. by rewrite E1. }
  destruct (impl_GetShortAddress on add) as [s|e] eqn:E2; cycle 1.
  { inversion Hout; subst. by rewrite E1. }
  apply found_Err in E1 as Hshort.
  destruct (is_system add) eqn:Es.
  { inversion Hout; subst r m1. rewrite !Memory_record_store. cbn [Short].
    destruct (decide (s = id)) as [Hs|Hs]; [|by rewrite E1, store_twice].
    cbn [merge Short]. rewrite Hshort.
    destruct (decide (s = "")) as [Hs0|Hs0].
    - rewrite Hs0 at 1. rewrite pick_empty, found_empty. by rewrite store_twice.
    - by rewrite pick_nonempty_r, found_nonempty. }
  destruct (found (Robust (Memory_record m id))) as [r'|e3] eqn:E3.
  { inversion Hout; subst r m1. rewrite !Memory_record_store. cbn [Short].
    destruct (decide (s = id)) as [Hs|Hs]; [|by rewrite E1, E3, store_twice].
    cbn [merge Short Robust]. rewrite Hshort.
    apply found_Ok in E3 as [-> Hr'].
    destruct (decide (s = "")) as [Hs0|Hs0].
    - rewrite Hs0 at 1. rewrite pick_empty, found_empty.
      by rewrite pick_same, found_nonempty, store_twice.
    - by rewrite pick_nonempty_r, found_nonempty. }
  destruct (impl_GetRobustAddress on add) as [r'|e4]; [done|].
  inversion Hout; subst. by rewrite E1, E3.
Qed.

Lemma robust_outcome_settled m on add r m1 :
  robust_outcome m on add = Some (r, m1) →
  robust_outcome m1 on add = Some (r, m1).
Proof.
  unfold robust_outcome.
  cbn [impl_GetShortAddress impl_GetRobustAddress impl_StoreAddressInfo Memory_IActorsCache].
  unfold Memory_GetShortAddress, Memory_GetRobustAddress.
  set (id := address_String add). intros Hout.
  destruct (is_system add) eqn:Es; [by inversion Hout; subst|].
  destruct (found (Robust (Memory_record m id))) as [r0|e0] eqn:E1.
  { inversion Hout; subst. by rewrite E1. }
  destruct (impl_GetRobustAddress on add) as [r'|e] eqn:E2; cycle 1.
  { inversion Hout; subst. by rewrite E1. }
  apply found_Err in E1 as Hrobust.
  destruct (found (Short (Memory_record m id))) as [s|e3] eqn:E3.
  { inversion Hout; subst r m1. rewrite !Memory_record_store. cbn [Short].
    destruct (decide (s = id)) as [Hs|Hs]; [|by rewrite E1, E3, store_twice].
    cbn [merge Short Robust]. rewrite Hrobust.
    apply found_Ok in E3 as [-> Hs0].
    destruct (decide (r' = "")) as [Hr0|Hr0].
    - rewrite Hr0 at 1. rewrite pick_empty, found_empty.
      by rewrite pick_same, found_nonempty, store_twice.
    - by rewrite pick_nonempty_r, found_nonempty. }
  destruct (impl_GetShortAddress on add) as [s|e4]; [done|].
  inversion Hout; subst. by rewrite E1, E3.
Qed.

(** What [short_outcome] leaves behind: the store as it was, or the store
    after one write that brings no code. *)
Lemma short_outcome_store m on add r m1 :
  short_outcome m on add = Some (r, m1) →
  m1 = m ∨ ∃ robust, is_Ok r = true ∧
    m1 = Memory_StoreAddressInfo
           {| Short := match r with Ok s => s | Err _ => "" end;
              Robust := robust; ActorCid := "" |} m.
Proof.
  unfold short_outcome. intros Hout.
  destruct (impl_GetShortAddress m add); [by inversion Hout; left|].
  destruct (impl_GetShortAddress on add) as [s|]; [|by inversion Hout; left].
  destruct (is_system add).
  { inversion Hout; subst. right. by eexists. }
  destruct (impl_GetRobustAddress m add).
  { inversion Hout; subst. right. by eexists. }
  destruct (impl_GetRobustAddress on add); [done|]. inversion Hout. by left.
Qed.

(** A settled short form stays settled when a code is stored under it. *)
Lemma short_outcome_stable m on add s code :
  short_outcome m on add = Some (Ok s, m) →
  let m1 := Memory_StoreAddressInfo {| Short := s; Robust := ""; ActorCid := code |} m in
  short_outcome m1 on add = Some (Ok s, m1).
Proof.
  unfold short_outcome.
  cbn [impl_GetShortAddress impl_GetRobustAddress impl_StoreAddressInfo Memory_IActorsCache].
  unfold Memory_GetShortAddress, Memory_GetRobustAddress.
  set (id := address_String add). intros Hout. cbv zeta.
  rewrite !Memory_record_store. cbn [Short].
  assert (∀ robust,
    Memory_StoreAddressInfo {| Short := s; Robust := robust; ActorCid := "" |} m = m →
    Memory_StoreAddressInfo {| Short := s; Robust := robust; ActorCid := "" |}
      (Memory_StoreAddressInfo {| Short := s; Robust := ""; ActorCid := code |} m)
    = Memory_StoreAddressInfo {| Short := s; Robust := ""; ActorCid := code |} m)
    as Hkeep.
  { intros robust Hfix. apply store_absorbed, absorbed_store_other.
    - by apply store_fixed_absorbed.
    - intros [| |]; cbn; auto. }
  destruct (found (Short (Memory_record m id))) as [s0|e0] eqn:E1.
  { inversion Hout; subst s0. apply found_Ok in E1 as [E1 Hs0].
    destruct (decide (s = id)) as [Hs|Hs].
    - cbn [merge Short]. by rewrite E1, pick_same, found_nonempty.
    - by rewrite E1, found_nonempty. }
  destruct (impl_GetShortAddress on add) as [s'|e] eqn:E2; [|done].
  apply found_Err in E1 as Hshort.
  destruct (is_system add) eqn:Es.
  { injection Hout as Hs' Hfix. subst s'.
    destruct (decide (s = id)) as [Hs|Hs]; [|by rewrite E1, Hkeep].
    cbn [merge Short]. rewrite Hshort.
    destruct (decide (s = "")) as [Hs0|Hs0].
    - rewrite Hs0 at 1. rewrite pick_empty, found_empty. by rewrite Hkeep.
    - by rewrite pick_nonempty_r, found_nonempty. }
  destruct (found (Robust (Memory_record m id))) as [r'|e3] eqn:E3.
  { injection Hout as Hs' Hfix. subst s'.
    destruct (decide (s = id)) as [Hs|Hs]; [|by rewrite E1, E3, Hkeep].
    cbn [merge Short Robust]. rewrite Hshort, pick_empty, E3.
    destruct (decide (s = "")) as [Hs0|Hs0].
    - rewrite Hs0 at 1. rewrite pick_empty, found_empty. by rewrite Hkeep.
    - by rewrite pick_nonempty_r, found_nonempty. }
  by destruct (impl_GetRobustAddress on add).
Qed.

Lemma code_outcome_settled m on add key r m1 :
  code_outcome m on add key = Some (r, m1) →
  code_outcome m1 on add key = Some (r, m1).
Proof.
  unfold code_outcome.
  cbn [impl_GetActorCode impl_StoreAddressInfo Memory_IActorsCache].
  unfold Memory_GetActorCode.
  set (id := address_String add). intros Hout.
  destruct (found (ActorCid (Memory_record m id))) as [c0|e0] eqn:E1.
  { inversion Hout; subst. by rewrite E1. }
  destruct (impl_GetActorCode on add key) as [c|e] eqn:E2; cycle 1.
  { inversion Hout; subst. by rewrite E1. }
  apply found_Err in E1 as Hcode.
  destruct (short_outcome m on add) as [[[s|e] m']|] eqn:ES; [| |done].
  - inversion Hout; subst r m1.
    pose proof (short_outcome_settled _ _ _ _ _ ES) as Hsettled.
    pose proof (short_outcome_stable _ _ _ _ c Hsettled) as Hstable. cbv zeta in Hstable.
    assert (ActorCid (Memory_record m' id) = "") as Hcode'.
    { destruct (short_outcome_store _ _ _ _ _ ES) as [->|(robust & _ & ->)]; [done|].
      rewrite Memory_record_store. case_decide; [|done].
      cbn [merge ActorCid]. by rewrite pick_empty. }
    rewrite Hstable, store_twice, Memory_record_store. cbn [Short].
    destruct (decide (s = id)) as [Hs|Hs]; [|by rewrite Hcode', found_empty].
    cbn [merge ActorCid]. rewrite Hcode'.
    destruct (decide (c = "")) as [Hc0|Hc0].
    + rewrite Hc0 at 1. by rewrite pick_empty, found_empty.
    + by rewrite pick_nonempty_r, found_nonempty.
  - inversion Hout; subst r m1.
    destruct (short_outcome_store _ _ _ _ _ ES) as [->|(robust & ? & _)]; [|done].
    by rewrite E1, ES.
Qed.

Lemma outcome_settled f m on add r m1 :
  outcome f m on add = Some (r, m1) →
  outcome f m1 on add = Some (r, m1).
Proof.
  destruct f; cbn [outcome];
    [apply code_outcome_settled|apply robust_outcome_settled|apply short_outcome_settled].
Qed.

(** The second call takes no more frames than the first. *)
Lemma short_frames_le m on add : short_frames m on add ≤ 3.
Proof. unfold short_frames. repeat case_match; lia. Qed.

Lemma short_frames_settled m on add r m1 :
  short_outcome m on add = Some (r, m1) →
  short_frames m1 on add ≤ short_frames m on add.
Proof.
  intros Hout. pose proof (short_frames_le m1 on add) as Hle.
  revert Hout. unfold short_outcome, short_frames at 2.
  destruct (impl_GetShortAddress m add) as [s|e] eqn:E1.
  { intros [= _ <-]. unfold short_frames. by rewrite E1. }
  destruct (impl_GetShortAddress on add) as [s|e2] eqn:E2; [lia|].
  intros [= _ <-]. unfold short_frames. by rewrite E1, E2.
Qed.

Lemma robust_frames_settled m on add r m1 :
  robust_outcome m on add = Some (r, m1) →
  robust_frames m1 on add ≤ robust_frames m on add.
Proof.
  unfold robust_outcome, robust_frames.
  destruct (is_system add); [lia|].
  destruct (impl_GetRobustAddress m add) as [s|e] eqn:E1.
  { intros [= _ <-]. by rewrite E1. }
  destruct (impl_GetRobustAddress on add) as [s|e2] eqn:E2.
  - intros _. repeat case_match; lia.
  - intros [= _ <-]. by rewrite E1.
Qed.

Lemma code_frames_settled m on add key r m1 :
  code_outcome m on add key = Some (r, m1) →
  code_frames m1 on add key ≤ code_frames m on add key.
Proof.
  unfold code_outcome, code_frames.
  destruct (impl_GetActorCode m add key) as [c|e] eqn:E1.
  { intros [= _ <-]. by rewrite E1. }
  destruct (impl_GetActorCode on add key) as [c|e2] eqn:E2; cycle 1.
  { intros [= _ <-]. by rewrite E1. }
  destruct (short_outcome m on add) as [[[s|e3] m']|] eqn:ES; [| |done].
  - intros [= _ <-].
    enough (short_frames
              (Memory_StoreAddressInfo {| Short := s; Robust := ""; ActorCid := c |} m')
              on add ≤ short_frames m on add)
      by (repeat case_match; simplify_eq; lia).
    pose proof (short_frames_le
      (Memory_StoreAddressInfo {| Short := s; Robust := ""; ActorCid := c |} m') on add).
    revert ES. unfold short_outcome, short_frames at 2.
    cbn [impl_GetShortAddress impl_StoreAddressInfo Memory_IActorsCache].
    unfold Memory_GetShortAddress.
    destruct (found (Short (Memory_record m (address_String add)))) as [s0|e0] eqn:E3;
      [|case_match; [lia|done]].
    intros [= -> <-]. apply found_Ok in E3 as [E3 Hs0].
    unfold short_frames.
    cbn [impl_GetShortAddress impl_StoreAddressInfo Memory_IActorsCache].
    unfold Memory_GetShortAddress. rewrite Memory_record_store. cbn [Short].
    case_decide; [cbn [merge Short]; rewrite E3, pick_same|rewrite E3];
      by rewrite found_nonempty.
  - intros [= _ <-].
    destruct (short_outcome_store _ _ _ _ _ ES) as [->|(robust & ? & _)]; [|done].
    by rewrite E1.
Qed.

Lemma frames_settled f m on add r m1 :
  outcome f m on add = Some (r, m1) →
  frames f m1 on add ≤ frames f m on add.
Proof.
  destruct f; cbn [outcome frames];
    [apply code_frames_settled|apply robust_frames_settled|apply short_frames_settled].
Qed.

(** C9.  When a resolve operation has returned, calling it again with the
    same arguments (and no less stack than the first call had) returns the
    same result and leaves both tiers as the first call left them.  The
    Offline Store is the in-memory table. *)
Theorem resolve_idempotent f depth add (a a1 : ActorsCache Memory On) r :
  resolve f depth add a = (Some r, a1) →
  ∀ depth' : nat, depth ≤ depth' →
    ∃ a2, resolve f depth' add a1 = (Some r, a2) ∧
          offlineCache a2 = offlineCache a1 ∧
          onChainCache a2 = onChainCache a1.
Proof.
  intros Hfirst depth' Hdepth.
  pose proof (resolve_outcome _ _ _ _ _ _ Hfirst) as Hout.
  pose proof (resolve_frames _ _ _ _ _ _ Hfirst) as Hframes.
  assert (∀ d (b : ActorsCache Memory On),
            onChainCache (snd (resolve f d add b)) = onChainCache b) as Hsame.
  { intros d b. destruct f; cbn [resolve];
      [apply GetActorCode_extends|apply GetRobustAddress_extends
      |apply GetShortAddress_extends]. }
  assert (onChainCache a1 = onChainCache a) as Hon.
  { change a1 with (snd (Some r, a1)). rewrite <- Hfirst. apply Hsame. }
  pose proof (frames_settled _ _ _ _ _ _ Hout) as Hless.
  apply outcome_settled in Hout. rewrite <- Hon in Hout, Hless, Hframes.
  destruct (outcome_run f depth' add a1 r _ Hout) as (a2 & Hsecond & Hoff); [lia|].
  exists a2. split_and!; [done..|].
  change a2 with (snd (Some r, a2)). rewrite <- Hsecond. apply Hsame.
Qed.

End MemoryProperties.

(** ** The cache on a concrete chain state *)

(** The identity f1abc has never been seen (the in-memory table is empty)
    and the node knows its code, its short form and its robust form.
    However many stack frames are available, none of the three resolve
    operations returns, and the number of on-chain queries issued grows
    with the frames used: one query for every two frames. *)
Lemma cold_identity_never_resolved depth :
  Forall (λ f,
      fst (resolve f depth f1abc (fresh mainnet)) = None ∧
      onchain_queries (calls (snd (resolve f depth f1abc (fresh mainnet))))
      = Nat.div2 (S depth))
    [FCode head_key; FRobust; FShort].
Proof.
  assert (∀ f, f = FCode head_key ∨ f = FRobust ∨ f = FShort →
    fst (resolve f depth f1abc (fresh mainnet)) = None ∧
    onchain_queries (calls (snd (resolve f depth f1abc (fresh mainnet))))
    = Nat.div2 (S depth)) as Hall.
  { intros f Hf.
    destruct (cold_resolution_diverges f depth f1abc (fresh mainnet))
      as (a' & Hr & _ & Hq);
      [by (destruct Hf as [->|[->| ->]]; vm_compute)..|].
    rewrite Hr. split; [done|]. exact Hq. }
  repeat constructor; apply Hall; auto.
Qed.

(** At five frames already, two queries for the short form alone. *)
Example cold_short_lookup_five_frames :
  calls (snd (GetShortAddress 5 f1abc (fresh mainnet))) =
  [ EvGetShortAddress Offline f1abc; EvGetShortAddress OnChain f1abc;
    EvGetRobustAddress Offline f1abc; EvGetRobustAddress OnChain f1abc;
    EvGetShortAddress Offline f1abc; EvGetShortAddress OnChain f1abc ].
Proof. vm_compute. reflexivity. Qed.

Lemma GetRobustAddress_system_actor_f00 :
  is_Some (SystemActorsId !! address_String f00) ∧
  GetRobustAddress 1 f00 (fresh mainnet) = (Some (Ok "f00"), fresh mainnet).
Proof.
  assert (is_Some (SystemActorsId !! address_String f00)) as Hsys
    by (exists true; reflexivity).
  split; [exact Hsys|].
  exact (GetRobustAddress_system_actor 0 f00 (fresh mainnet) Hsys).
Defined.

Lemma system_actor_still_resolved_f05 :
  FShort ≠ FRobust ∧
  is_Some (SystemActorsId !! address_String f05) ∧
  resolve FShort 3 f05 (fresh mainnet) =
    lift_error "f05" (write_back FShort 2 f05 "f05" (asked_both FShort f05 (fresh mainnet))) ∧
  resolve FShort 3 f05 (fresh mainnet) =
    (Some (Ok "f05"),
     stored {| Short := "f05"; Robust := "f05"; ActorCid := "" |}
       (asked_both FShort f05 (fresh mainnet))).
Proof.
  assert (is_Some (SystemActorsId !! address_String f05)) as Hsys
    by (exists true; reflexivity).
  assert (FShort ≠ FRobust) as Hf by discriminate.
  split; [exact Hf|]. split; [exact Hsys|].
  split; [|vm_compute; reflexivity].
  exact (proj1 (system_actor_still_resolved FShort 2 f05 (fresh mainnet) Hf Hsys)).
Defined.

(** C3 as stated fails on the code in both directions.  The node knows the
    short form of f0999, yet GetShortAddress fails, because the write-back
    could not resolve the robust form; and neither tier has a robust form
    for the system actor f00, yet GetRobustAddress succeeds. *)
Lemma failure_rule_refuted :
  ¬ fails_iff_both_tiers_fail FShort 3 f0999 (fresh mainnet) ∧
  ¬ fails_iff_both_tiers_fail FRobust 1 f00 (fresh mainnet).
Proof.
  split; intros Hrule.
  - destruct (Hrule (Err ErrActorNotFound)) as [Hfails _]; [by vm_compute|].
    destruct Hfails as [_ Hon]; [done|]. vm_compute in Hon. discriminate.
  - destruct (Hrule (Ok "f00")) as [_ Hok]; [by vm_compute|].
    discriminate Hok. by vm_compute.
Qed.

Lemma resolve_failure_semantics_f0999 :
  fst (resolve FShort 3 f0999 (fresh mainnet)) = Some (Err ErrActorNotFound) ∧
  fst (resolve FRobust 1 f0999 (asked_both FShort f0999 (fresh mainnet)))
  = Some (Err ErrActorNotFound).
Proof.
  assert (fst (resolve FShort 3 f0999 (fresh mainnet)) = Some (Err ErrActorNotFound))
    as Hrun by (vm_compute; reflexivity).
  split; [exact Hrun|].
  exact (proj1 (resolve_failure_semantics FShort 2 f0999 (fresh mainnet)
                  (Err ErrActorNotFound)) Hrun).
Defined.

Lemma resolve_idempotent_f05 :
  let first := resolve (FCode head_key) 5 f05 (fresh mainnet) in
  fst first = Some (Ok "fil/11/storagemarket") ∧
  ∃ a2, resolve (FCode head_key) 5 f05 (snd first) = (Some (Ok "fil/11/storagemarket"), a2) ∧
        offlineCache a2 = offlineCache (snd first) ∧
        onChainCache a2 = onChainCache (snd first).
Proof.
  assert (resolve (FCode head_key) 5 f05 (fresh mainnet)
          = (Some (Ok "fil/11/storagemarket"),
             snd (resolve (FCode head_key) 5 f05 (fresh mainnet)))) as Hfirst
    by (vm_compute; reflexivity).
  split; [by rewrite Hfirst|].
  exact (resolve_idempotent (FCode head_key) 5 f05 (fresh mainnet) _ _ Hfirst 5 (le_n 5)).
Defined.

(** * Properties of the transaction assembler *)

Section AssemblerProperties.

Variable decode : BlockMetadata → list Byte.byte → option (list FeeEntry).
Variable resolved : string → AddressInfo.

Lemma level_zero_none entries :
  Forall (λ e, Level e ≠ 0) entries → level_zero entries = [].
Proof.
  unfold level_zero. induction 1 as [|e entries He _ IH]; [done|].
  by rewrite filter_cons_False.
Qed.

Lemma level_zero_first before e after :
  Forall (λ e, Level e ≠ 0) before → Level e = 0 →
  level_zero (before ++ e :: after) = e :: level_zero after.
Proof.
  intros Hbefore He. pose proof (level_zero_none before Hbefore) as Hnone.
  unfold level_zero in *. by rewrite filter_app, Hnone, filter_cons_True.
Qed.

(** C5.  When the decoded payload holds two (or more) fee entries at trace
    level zero, GetBaseFee returns the value of the first of them in order
    of occurrence; it is neither the sum of the two values nor the value of
    the later entry, wherever those differ from the first. *)
Theorem GetBaseFee_first_of_duplicates traces metadata tipset
    before first between second after :
  decode metadata traces = Some (before ++ first :: between ++ second :: after) →
  Forall (λ e, Level e ≠ 0) before →
  Level first = 0 →
  Level second = 0 →
  GetBaseFee decode traces metadata tipset = Some (BaseFee first) ∧
  (BaseFee second ≠ 0%N →
   GetBaseFee decode traces metadata tipset ≠ Some (BaseFee first + BaseFee second)%N) ∧
  (BaseFee second ≠ BaseFee first →
   GetBaseFee decode traces metadata tipset ≠ Some (BaseFee second)).
Proof.
  intros Hdecode Hbefore Hfirst Hsecond.
  assert (GetBaseFee decode traces metadata tipset = Some (BaseFee first)) as ->.
  { unfold GetBaseFee. by rewrite Hdecode, level_zero_first. }
  split_and!; [done|..]; intros Hne [=]; lia.
Qed.

(** C6.  With a fee entry at trace level zero in a payload that decodes,
    GetBaseFee returns that entry's value (the first such entry's).  When
    the payload does not decode, or decodes to no entry at level zero,
    GetBaseFee returns the parent base fee recorded in the first block of
    the tipset. *)
Theorem GetBaseFee_fallback traces metadata tipset :
  (∀ before e after,
     decode metadata traces = Some (before ++ e :: after) →
     Forall (λ e, Level e ≠ 0) before → Level e = 0 →
     GetBaseFee decode traces metadata tipset = Some (BaseFee e)) ∧
  (∀ block blocks,
     Blocks tipset = block :: blocks →
     (decode metadata traces = None ∨
      ∃ entries, decode metadata traces = Some entries ∧
                 Forall (λ e, Level e ≠ 0) entries) →
     GetBaseFee decode traces metadata tipset = Some (ParentBaseFee block)).
Proof.
  split.
  - intros before e after Hdecode Hbefore He.
    unfold GetBaseFee. by rewrite Hdecode, level_zero_first.
  - intros block blocks Hblocks Hnone. unfold GetBaseFee. rewrite Hblocks.
    destruct Hnone as [->|(entries & -> & Hentries)]; [done|].
    by rewrite level_zero_none.
Qed.

(** C8.  ParseGenesis produces exactly one transaction per balance entry,
    in the order of the entries and each with its entry's amount.  Every
    transaction carries, as BlockCid, the identifier of the first block of
    the genesis tipset it was given and, as TipsetCid, the identifier of
    that tipset; all transactions share the pair. *)
Theorem ParseGenesis_provenance genesis genesisTipset :
  length (ParseGenesis resolved genesis genesisTipset) = length genesis ∧
  Amount <$> ParseGenesis resolved genesis genesisTipset = Balance <$> genesis ∧
  (∀ block blocks,
     Blocks genesisTipset = block :: blocks →
     Forall (λ tx, BlockCid tx = Cid block ∧
                   TipsetCid tx = GetCidString genesisTipset)
            (ParseGenesis resolved genesis genesisTipset)) ∧
  (∀ tx1 tx2,
     tx1 ∈ ParseGenesis resolved genesis genesisTipset →
     tx2 ∈ ParseGenesis resolved genesis genesisTipset →
     BlockCid tx1 = BlockCid tx2 ∧ TipsetCid tx1 = TipsetCid tx2).
Proof.
  unfold ParseGenesis. split_and!.
  - apply length_map.
  - induction genesis as [|balance rest IH]; [done|]. cbn. by rewrite IH.
  - intros block blocks Hblocks. apply Forall_map, Forall_true. intros balance. cbn.
    unfold block_identifier. by rewrite Hblocks.
  - intros tx1 tx2 Htx1 Htx2.
    apply list_elem_of_In, in_map_iff in Htx1 as (b1 & <- & _).
    apply list_elem_of_In, in_map_iff in Htx2 as (b2 & <- & _). done.
Qed.

End AssemblerProperties.

Lemma GetBaseFee_first_of_duplicates_845259 :
  GetBaseFee (λ _, decode_pairs) [Byte.x01; Byte.x64; Byte.x00; Byte.x07; Byte.x00; Byte.x09]
    {| NodeMajorMinorVersion := "v1.22" |} genesis_tipset = Some 7%N.
Proof.
  refine (proj1 (GetBaseFee_first_of_duplicates (λ _, decode_pairs)
    [Byte.x01; Byte.x64; Byte.x00; Byte.x07; Byte.x00; Byte.x09] {| NodeMajorMinorVersion := "v1.22" |}
    genesis_tipset
    [ {| Level := 1; BaseFee := 100 |} ] {| Level := 0; BaseFee := 7 |} []
    {| Level := 0; BaseFee := 9 |} [] _ _ _ _)).
  - reflexivity.
  - repeat constructor. discriminate.
  - reflexivity.
  - reflexivity.
Defined.

Lemma GetBaseFee_fallback_3450305 :
  GetBaseFee (λ _, decode_pairs) [Byte.x01; Byte.x64; Byte.x00; Byte.x07]
    {| NodeMajorMinorVersion := "v1.23" |} genesis_tipset = Some 7%N ∧
  GetBaseFee (λ _, decode_pairs) [Byte.x01; Byte.x64; Byte.x02]
    {| NodeMajorMinorVersion := "v1.23" |} genesis_tipset = Some 100%N.
Proof.
  split.
  - refine (proj1 (GetBaseFee_fallback (λ _, decode_pairs)
      [Byte.x01; Byte.x64; Byte.x00; Byte.x07] {| NodeMajorMinorVersion := "v1.23" |}
      genesis_tipset)
      [ {| Level := 1; BaseFee := 100 |} ] {| Level := 0; BaseFee := 7 |} [] _ _ _).
    + reflexivity.
    + repeat constructor. discriminate.
    + reflexivity.
  - refine (proj2 (GetBaseFee_fallback (λ _, decode_pairs)
      [Byte.x01; Byte.x64; Byte.x02] {| NodeMajorMinorVersion := "v1.23" |}
      genesis_tipset) genesis_block [] _ _).
    + reflexivity.
    + left. reflexivity.
Defined.

(** The mainnet genesis tipset: the provenance pair of the first
    transaction, and of all the others. *)
Example ParseGenesis_mainnet :
  let txs := ParseGenesis (λ id, {| Short := id; Robust := ""; ActorCid := "" |})
               [ {| Key := "f00"; Balance := 0 |}; {| Key := "f080"; Balance := 1000 |} ]
               genesis_tipset in
  length txs = 2 ∧
  BlockCid <$> txs !! 0
  = Some "bafy2bzacecnamqgqmifpluoeldx7zzglxcljo6oja4vrmtj7432rphldpdmm2" ∧
  TipsetCid <$> txs !! 0
  = Some "bafy2bzacea3l7hchfijz5fvswab36fxepf6oagecp5hrstmol7zpm2l4tedf6".
Proof. by vm_compute. Qed.

(** * Further behaviour of the cache *)

Section CacheLog.
Context {Off On : Type} `{!IActorsCache Off} `{!IActorsCache On}.

Implicit Types (a : ActorsCache Off On) (add : Address) (d depth : nat).

(** *** The shape of what a call adds to the log

    Whatever holds of the empty log, of a lone store read, of a store read
    followed by the same question to the node, and of a write that leaves
    the robust form or the code empty, and is kept by putting logs end to
    end, holds of what any call adds to the log. *)
Section Segments.
Variable P : list Event → Prop.
Hypothesis P_nil : P [].
Hypothesis P_app : ∀ l1 l2, P l1 → P l2 → P (l1 ++ l2).
Hypothesis P_offline : ∀ f add, P [query Offline f add].
Hypothesis P_both : ∀ f add, P [query Offline f add; query OnChain f add].
Hypothesis P_write :
  ∀ info, Robust info = "" ∨ ActorCid info = "" → P [EvStoreAddressInfo info].

Lemma adds_refl a : ∃ rest, calls a = calls a ++ rest ∧ P rest.
Proof. exists []. by rewrite app_nil_r. Qed.

Lemma adds_trans a1 a2 a3 :
  (∃ rest, calls a2 = calls a1 ++ rest ∧ P rest) →
  (∃ rest, calls a3 = calls a2 ++ rest ∧ P rest) →
  ∃ rest, calls a3 = calls a1 ++ rest ∧ P rest.
Proof.
  intros (r1 & H1 & HP1) (r2 & H2 & HP2). exists (r1 ++ r2).
  split; [by rewrite H2, H1, app_assoc|by apply P_app].
Qed.

Lemma adds_offline f add a :
  ∃ rest, calls (record (query Offline f add) a) = calls a ++ rest ∧ P rest.
Proof. by eexists. Qed.

Lemma adds_both f add a :
  ∃ rest, calls (asked_both f add a) = calls a ++ rest ∧ P rest.
Proof.
  exists [query Offline f add; query OnChain f add]. split; [|done].
  cbn. by rewrite <- app_assoc.
Qed.

Lemma adds_then_store mk a (out : option result * ActorsCache Off On) :
  (∀ v, Robust (mk v) = "" ∨ ActorCid (mk v) = "") →
  (∃ rest, calls (snd out) = calls a ++ rest ∧ P rest) →
  ∃ rest, calls (snd (then_store mk out)) = calls a ++ rest ∧ P rest.
Proof.
  intros Hmk Hout. destruct out as [[[v|e]|] a']; cbn [then_store snd] in *; [|done..].
  apply (adds_trans a a' (stored (mk v) a')); [exact Hout|].
  exists [EvStoreAddressInfo (mk v)]. split; [done|]. by apply P_write.
Qed.

Lemma address_lookups_add d :
  ∀ add a,
    (∃ rest, calls (snd (GetShortAddress d add a)) = calls a ++ rest ∧ P rest) ∧
    (∀ info, ∃ rest,
       calls (snd (storeShortAddress d add info a)) = calls a ++ rest ∧ P rest) ∧
    (∃ rest, calls (snd (GetRobustAddress d add a)) = calls a ++ rest ∧ P rest) ∧
    (∀ info, ∃ rest,
       calls (snd (storeRobustAddress d add info a)) = calls a ++ rest ∧ P rest).
Proof.
  induction d as [|d IH]; intros add a.
  - split; [|split; [|split]]; try intros info; apply adds_refl.
  - split; [|split; [|split]]; try intros info.
    + rewrite GetShortAddress_S.
      destruct (impl_GetShortAddress (offlineCache a) add);
        [apply (adds_offline FShort)|].
      destruct (impl_GetShortAddress (onChainCache a) add);
        [|apply (adds_both FShort)].
      rewrite snd_lift_error.
      eapply adds_trans; [apply (adds_both FShort)|]. apply IH.
    + rewrite storeShortAddress_S. apply adds_then_store; [by right|]. apply IH.
    + rewrite GetRobustAddress_S.
      destruct (SystemActorsId !! address_String add); [apply adds_refl|].
      destruct (impl_GetRobustAddress (offlineCache a) add);
        [apply (adds_offline FRobust)|].
      destruct (impl_GetRobustAddress (onChainCache a) add);
        [|apply (adds_both FRobust)].
      rewrite snd_lift_error.
      eapply adds_trans; [apply (adds_both FRobust)|]. apply IH.
    + rewrite storeRobustAddress_S. apply adds_then_store; [by right|]. apply IH.
Qed.

Lemma resolve_adds f d add a :
  ∃ rest, calls (snd (resolve f d add a)) = calls a ++ rest ∧ P rest.
Proof.
  destruct f as [key| |]; cbn [resolve]; [|apply address_lookups_add..].
  destruct d as [|d]; [apply adds_refl|]. rewrite GetActorCode_S.
  destruct (impl_GetActorCode (offlineCache a) add key);
    [apply (adds_offline (FCode key))|].
  destruct (impl_GetActorCode (onChainCache a) add key);
    [|apply (adds_both (FCode key))].
  rewrite snd_lift_error.
  eapply adds_trans; [apply (adds_both (FCode key))|].
  destruct d as [|d]; [apply adds_refl|].
  rewrite storeActorCode_S. apply adds_then_store; [by left|].
  apply address_lookups_add.
Qed.

End Segments.

Lemma store_first_app l1 l2 : store_first l1 → store_first l2 → store_first (l1 ++ l2).
Proof.
  intros H1 H2 i e Hi He. destruct (decide (i < length l1)) as [Hlt|Hge].
  - rewrite lookup_app_l in Hi by done.
    destruct (H1 i e Hi He) as (j & -> & Hj). exists j. split; [done|].
    rewrite lookup_app_l by lia. done.
  - rewrite lookup_app_r in Hi by lia.
    destruct (H2 _ e Hi He) as (j & Hij & Hj). exists (length l1 + j). split; [lia|].
    rewrite lookup_app_r by lia. by replace (length l1 + j - length l1) with j by lia.
Qed.

(** X2.  The node is never asked before the store: in what any resolve
    operation adds to the log, at any stack depth and whether or not it
    returns, every on-chain query comes right after the offline read of the
    same facet of the same identity. *)
Theorem resolve_asks_store_first f depth add a :
  ∃ rest, calls (snd (resolve f depth add a)) = calls a ++ rest ∧ store_first rest.
Proof.
  apply resolve_adds.
  - intros i e Hi. by rewrite lookup_nil in Hi.
  - apply store_first_app.
  - intros g x [|i] e Hi He; simplify_eq/=; by destruct g.
  - intros g x [|[|i]] e Hi He; simplify_eq/=; try by destruct g.
    exists 0. by destruct g.
  - by intros info _ [|i] e Hi He; simplify_eq/=.
Qed.

(** X3.  No write of the cache brings all three facets: every record a
    resolve operation hands to StoreAddressInfo leaves the robust form or
    the code empty, so the store has to merge. *)
Theorem resolve_writes_partial f depth add a :
  ∃ rest, calls (snd (resolve f depth add a)) = calls a ++ rest ∧ partial_writes rest.
Proof.
  apply resolve_adds.
  - intros info Hin. by apply elem_of_nil in Hin.
  - intros l1 l2 H1 H2 info Hin. apply elem_of_app in Hin as [Hin|Hin]; eauto.
  - intros g x info Hin. apply list_elem_of_singleton in Hin. by destruct g.
  - intros g x info Hin. apply elem_of_cons in Hin as [Hin|Hin]; [by destruct g|].
    apply list_elem_of_singleton in Hin. by destruct g.
  - intros info Hinfo info' Hin. apply list_elem_of_singleton in Hin. by simplify_eq.
Qed.

End CacheLog.

Section CacheBehaviour.
Context {Off On : Type} `{!IActorsCache Off} `{!IActorsCache On}.

Implicit Types (a : ActorsCache Off On) (add : Address) (d depth : nat).

(** *** A call that does not succeed writes nothing *)

Lemma address_lookups_all_or_nothing d :
  ∀ add a,
    (succeeded (fst (GetShortAddress d add a)) = false →
     offlineCache (snd (GetShortAddress d add a)) = offlineCache a) ∧
    (∀ info, fst (storeShortAddress d add info a) ≠ Some None →
     offlineCache (snd (storeShortAddress d add info a)) = offlineCache a) ∧
    (succeeded (fst (GetRobustAddress d add a)) = false →
     offlineCache (snd (GetRobustAddress d add a)) = offlineCache a) ∧
    (∀ info, fst (storeRobustAddress d add info a) ≠ Some None →
     offlineCache (snd (storeRobustAddress d add info a)) = offlineCache a).
Proof.
  induction d as [|d IH]; intros add a; [by repeat split|].
  split; [|split; [|split]].
  - rewrite GetShortAddress_S.
    destruct (impl_GetShortAddress (offlineCache a) add); [done|].
    destruct (impl_GetShortAddress (onChainCache a) add) as [s|]; [|done].
    destruct (IH add (asked_both FShort add a)) as (_ & Hstore & _).
    specialize (Hstore {| Short := s; Robust := ""; ActorCid := "" |}).
    unfold asked_both in Hstore. cbn [query] in Hstore.
    destruct (storeShortAddress d add _ _) as [[[x|]|] a']; cbn in *; try done;
      intros _; by apply Hstore.
  - intros info. rewrite storeShortAddress_S.
    destruct (IH add a) as (_ & _ & Hget & _).
    destruct (GetRobustAddress d add a) as [[[w|x]|] a']; cbn in *; try done;
      intros _; by apply Hget.
  - rewrite GetRobustAddress_S.
    destruct (SystemActorsId !! address_String add); [done|].
    destruct (impl_GetRobustAddress (offlineCache a) add); [done|].
    destruct (impl_GetRobustAddress (onChainCache a) add) as [r|]; [|done].
    destruct (IH add (asked_both FRobust add a)) as (_ & _ & _ & Hstore).
    specialize (Hstore {| Short := ""; Robust := r; ActorCid := "" |}).
    unfold asked_both in Hstore. cbn [query] in Hstore.
    destruct (storeRobustAddress d add _ _) as [[[x|]|] a']; cbn in *; try done;
      intros _; by apply Hstore.
  - intros info. rewrite storeRobustAddress_S.
    destruct (IH add a) as (Hget & _).
    destruct (GetShortAddress d add a) as [[[w|x]|] a']; cbn in *; try done;
      intros _; by apply Hget.
Qed.

(** X1.  A resolve operation that does not return a facet, because it
    failed or because the stack ran out, leaves the Offline Store exactly
    as it found it: the store only changes on the way to a success. *)
Theorem unsuccessful_resolve_writes_nothing f depth add a :
  succeeded (fst (resolve f depth add a)) = false →
  offlineCache (snd (resolve f depth add a)) = offlineCache a.
Proof.
  destruct f as [key| |]; cbn [resolve]; [|apply address_lookups_all_or_nothing..].
  destruct depth as [|d]; [done|]. rewrite GetActorCode_S.
  destruct (impl_GetActorCode (offlineCache a) add key); [done|].
  destruct (impl_GetActorCode (onChainCache a) add key) as [c|]; [|done].
  destruct d as [|d]; [done|]. rewrite storeActorCode_S.
  destruct (address_lookups_all_or_nothing d add
              (record (EvGetActorCode OnChain add key)
                 (record (EvGetActorCode Offline add key) a))) as (Hget & _).
  destruct (GetShortAddress d add _) as [[[w|x]|] a']; cbn in *; try done;
    intros _; by apply Hget.
Qed.

(** *** Where results come from *)

(** X5.  A resolve operation makes nothing up.  A facet it returns is the
    identity itself (GetRobustAddress on a system actor), the Offline
    Store's answer, or, the store having missed, the On-Chain Resolver's
    answer.  An error it returns is an error of the On-Chain Resolver, for
    the facet asked or for one of the two address forms of the same
    identity, and the store had missed: the store's own errors are never
    passed on. *)
Theorem resolve_provenance f depth add a r a' :
  resolve f depth add a = (Some r, a') →
  match r with
  | Ok v =>
      (short_circuits f add = true ∧ v = address_String add) ∨
      tier_answer f (offlineCache a) add = Ok v ∨
      (is_Ok (tier_answer f (offlineCache a) add) = false ∧
       tier_answer f (onChainCache a) add = Ok v)
  | Err e =>
      short_circuits f add = false ∧
      is_Ok (tier_answer f (offlineCache a) add) = false ∧
      ∃ g, (g = f ∨ g = FShort ∨ g = FRobust) ∧
           tier_answer g (onChainCache a) add = Err e
  end.
Proof.
  intros Hrun. apply resolve_outcome in Hrun. revert Hrun.
  destruct f as [key| |];
    cbn [outcome tier_answer short_circuits];
    unfold code_outcome, robust_outcome, short_outcome;
    repeat case_match; intros; simplify_eq; cbn;
    try (split_and?; [done..|]); eauto 10.
Qed.

(** X7.  With neither address form of an identity in the Offline Store,
    and the facet asked for not there either, a resolve operation can only
    succeed for an identity of SystemActorsId. *)
Theorem cold_success_only_for_system_actors f depth add a v a' :
  is_Ok (tier_answer f (offlineCache a) add) = false →
  is_Ok (impl_GetShortAddress (offlineCache a) add) = false →
  is_Ok (impl_GetRobustAddress (offlineCache a) add) = false →
  resolve f depth add a = (Some (Ok v), a') →
  is_Some (SystemActorsId !! address_String add).
Proof.
  intros Hf Hs Hr Hrun. apply resolve_outcome in Hrun.
  destruct (is_system add) eqn:Es; [by apply is_system_true in Es|].
  revert Hf Hs Hr Hrun.
  destruct f as [key| |];
    cbn [outcome tier_answer];
    unfold code_outcome, robust_outcome, short_outcome; rewrite ?Es;
    repeat case_match; by intros; simplify_eq.
Qed.

(** *** When a call returns *)

Lemma outcome_cold f (off : Off) (on : On) add :
  outcome f off on add = None ↔ cold_for f off on add = true.
Proof.
  unfold cold_for.
  destruct f as [key| |];
    cbn [outcome tier_answer];
    unfold code_outcome, robust_outcome, short_outcome;
    destruct (is_system add);
    try destruct (impl_GetActorCode off add key);
    try destruct (impl_GetActorCode on add key);
    destruct (impl_GetShortAddress off add), (impl_GetShortAddress on add),
      (impl_GetRobustAddress off add), (impl_GetRobustAddress on add);
    cbn; naive_solver.
Qed.

Lemma frames_le f (off : Off) (on : On) add : frames f off on add ≤ 5.
Proof.
  destruct f; cbn [frames];
    unfold code_frames, robust_frames, short_frames; repeat case_match; lia.
Qed.

(** X6.  The three resolve operations return in every situation but one.
    For an identity outside SystemActorsId with neither address form in
    the store and both known to the node (and, for GetActorCode, the code
    missing from the store and known to the node), no stack depth is
    enough; in every other situation five frames are. *)
Theorem resolve_returns_unless_cold f add a :
  if cold_for f (offlineCache a) (onChainCache a) add
  then ∀ depth, fst (resolve f depth add a) = None
  else ∀ depth, 5 ≤ depth → is_Some (fst (resolve f depth add a)).
Proof.
  destruct (cold_for _ _ _ _) eqn:Hcold.
  - intros depth. by apply no_outcome_no_return, outcome_cold.
  - intros depth Hdepth.
    destruct (outcome f (offlineCache a) (onChainCache a) add) as [[r off']|] eqn:Hout.
    + destruct (outcome_run f depth add a r off' Hout) as (a' & -> & _); [|by eexists].
      pose proof (frames_le f (offlineCache a) (onChainCache a) add). lia.
    + apply outcome_cold in Hout. congruence.
Qed.

(** *** The write-back *)

(** X9.  A facet that comes from the node is written back before it is
    returned: when the store has missed and the operation succeeds (other
    than by the system-actor short-circuit), the last thing it did was a
    StoreAddressInfo of a record that holds the returned facet next to a
    short form. *)
Theorem returned_discovery_was_stored f depth add a v a' :
  short_circuits f add = false →
  is_Ok (tier_answer f (offlineCache a) add) = false →
  resolve f depth add a = (Some (Ok v), a') →
  ∃ info a0,
    facet_of f info = v ∧
    a' = stored info a0 ∧
    tier_answer f (onChainCache a) add = Ok v.
Proof.
  intros Hsc Hoff Hrun. destruct depth as [|d]; [by destruct f|].
  rewrite resolve_S, Hsc in Hrun.
  destruct (tier_answer f (offlineCache a) add) as [|e1]; [done|].
  destruct (tier_answer f (onChainCache a) add) as [v'|e2]; [|by simplify_eq].
  destruct d as [|d]; [by destruct f|]. rewrite write_back_S in Hrun.
  destruct (resolve (complement f) d add (asked_both f add a)) as [[[w|e]|] a0];
    cbn in Hrun; simplify_eq.
  eexists _, a0. split_and!; [|done..]. by destruct f.
Qed.

(** *** What a call that returns has cost *)

Lemma store_writes_app l1 l2 :
  store_writes (l1 ++ l2) = store_writes l1 + store_writes l2.
Proof. unfold store_writes. by rewrite filter_app, length_app. Qed.

Lemma store_writes_snoc l e :
  store_writes (l ++ [e]) = store_writes l + (if is_write e then 1 else 0).
Proof. rewrite store_writes_app. f_equal. by destruct e. Qed.

Ltac tally :=
  cbn [calls record stored is_Ok];
  rewrite ?onchain_queries_snoc, ?store_writes_snoc;
  cbn [is_onchain is_write]; lia.

Lemma GetShortAddress_cost d add a r a' :
  GetShortAddress d add a = (Some r, a') →
  onchain_queries (calls a') ≤ onchain_queries (calls a) + (if is_Ok r then 1 else 2) ∧
  store_writes (calls a') ≤ store_writes (calls a) + (if is_Ok r then 1 else 0).
Proof.
  intros Hrun.
  destruct (impl_GetShortAddress (offlineCache a) add) as [s|e1] eqn:E1.
  { destruct d as [|d]; [discriminate|].
    rewrite GetShortAddress_S, E1 in Hrun. inversion Hrun; subst. split; tally. }
  destruct (impl_GetShortAddress (onChainCache a) add) as [s|e2] eqn:E2; cycle 1.
  { destruct d as [|d]; [discriminate|].
    rewrite GetShortAddress_S, E1, E2 in Hrun. inversion Hrun; subst. split; tally. }
  destruct (is_system add) eqn:Es.
  { apply is_system_true in Es as [b Hb].
    destruct d as [|[|[|d]]]; [discriminate|..];
      rewrite GetShortAddress_S, E1, E2 in Hrun; [discriminate|..];
      rewrite storeShortAddress_S in Hrun; [discriminate|].
    rewrite GetRobustAddress_S, Hb in Hrun. inversion Hrun; subst. split; tally. }
  apply is_system_false in Es.
  destruct (impl_GetRobustAddress (offlineCache a) add) as [r'|e3] eqn:E3.
  { destruct d as [|[|[|d]]]; [discriminate|..];
      rewrite GetShortAddress_S, E1, E2 in Hrun; [discriminate|..];
      rewrite storeShortAddress_S in Hrun; [discriminate|].
    rewrite GetRobustAddress_S, Es in Hrun. cbn in Hrun.
    rewrite E3 in Hrun. inversion Hrun; subst. split; tally. }
  destruct (impl_GetRobustAddress (onChainCache a) add) as [r'|e4] eqn:E4; cycle 1.
  { destruct d as [|[|[|d]]]; [discriminate|..];
      rewrite GetShortAddress_S, E1, E2 in Hrun; [discriminate|..];
      rewrite storeShortAddress_S in Hrun; [discriminate|].
    rewrite GetRobustAddress_S, Es in Hrun. cbn in Hrun.
    rewrite E3, E4 in Hrun. inversion Hrun; subst. split; tally. }
  destruct (cold_descent d add a) as [(a'' & Hdiv & _) _];
    rewrite ?E1, ?E2, ?E3, ?E4; try done.
  congruence.
Qed.

Lemma GetRobustAddress_cost d add a r a' :
  GetRobustAddress d add a = (Some r, a') →
  onchain_queries (calls a') ≤ onchain_queries (calls a) + (if is_Ok r then 1 else 2) ∧
  store_writes (calls a') ≤ store_writes (calls a) + (if is_Ok r then 1 else 0).
Proof.
  intros Hrun.
  destruct (is_system add) eqn:Es.
  { apply is_system_true in Es as [b Hb].
    destruct d as [|d]; [discriminate|].
    rewrite GetRobustAddress_S, Hb in Hrun. inversion Hrun; subst. split; tally. }
  apply is_system_false in Es.
  destruct (impl_GetRobustAddress (offlineCache a) add) as [s|e1] eqn:E1.
  { destruct d as [|d]; [discriminate|].
    rewrite GetRobustAddress_S, Es, E1 in Hrun. inversion Hrun; subst. split; tally. }
  destruct (impl_GetRobustAddress (onChainCache a) add) as [s|e2] eqn:E2; cycle 1.
  { destruct d as [|d]; [discriminate|].
    rewrite GetRobustAddress_S, Es, E1, E2 in Hrun. inversion Hrun; subst. split; tally. }
  destruct (impl_GetShortAddress (offlineCache a) add) as [s'|e3] eqn:E3.
  { destruct d as [|[|[|d]]]; [discriminate|..];
      rewrite GetRobustAddress_S, Es, E1, E2 in Hrun; [discriminate|..];
      rewrite storeRobustAddress_S in Hrun; [discriminate|].
    rewrite GetShortAddress_S in Hrun. cbn in Hrun.
    rewrite E3 in Hrun. inversion Hrun; subst. split; tally. }
  destruct (impl_GetShortAddress (onChainCache a) add) as [s'|e4] eqn:E4; cycle 1.
  { destruct d as [|[|[|d]]]; [discriminate|..];
      rewrite GetRobustAddress_S, Es, E1, E2 in Hrun; [discriminate|..];
      rewrite storeRobustAddress_S in Hrun; [discriminate|].
    rewrite GetShortAddress_S in Hrun. cbn in Hrun.
    rewrite E3, E4 in Hrun. inversion Hrun; subst. split; tally. }
  destruct (cold_descent d add a) as [_ (a'' & Hdiv & _)];
    rewrite ?E1, ?E2, ?E3, ?E4; try done.
  congruence.
Qed.

Lemma GetActorCode_cost d add key a r a' :
  GetActorCode d add key a = (Some r, a') →
  onchain_queries (calls a') ≤ onchain_queries (calls a) + (if is_Ok r then 2 else 3) ∧
  store_writes (calls a') ≤ store_writes (calls a) + (if is_Ok r then 2 else 0).
Proof.
  intros Hrun.
  destruct d as [|d]; [discriminate|]. rewrite GetActorCode_S in Hrun.
  destruct (impl_GetActorCode (offlineCache a) add key) as [c|e1].
  { inversion Hrun; subst. split; tally. }
  destruct (impl_GetActorCode (onChainCache a) add key) as [c|e2]; cycle 1.
  { inversion Hrun; subst. split; tally. }
  destruct d as [|d]; [discriminate|]. rewrite storeActorCode_S in Hrun.
  destruct (GetShortAddress d add _) as [[r2|] a2] eqn:E; [|discriminate].
  apply GetShortAddress_cost in E as [Hq Hw].
  cbn [calls record] in Hq, Hw.
  rewrite !onchain_queries_snoc in Hq. rewrite !store_writes_snoc in Hw.
  cbn [is_onchain is_write] in Hq, Hw.
  destruct r2; inversion Hrun; subst; cbn [is_Ok] in *; split; tally.
Qed.

(** X4.  A resolve operation that returns has done a bounded amount of
    work.  On success GetShortAddress and GetRobustAddress have issued at
    most one on-chain query and one write, GetActorCode at most two of
    each.  On failure nothing was written, and at most two on-chain
    queries were issued (three by GetActorCode). *)
Theorem resolve_cost f depth add a r a' :
  resolve f depth add a = (Some r, a') →
  let more := match f with FCode _ => 1 | _ => 0 end in
  onchain_queries (calls a') ≤
    onchain_queries (calls a) + (if is_Ok r then 1 else 2) + more ∧
  store_writes (calls a') ≤
    store_writes (calls a) + (if is_Ok r then 1 + more else 0).
Proof.
  destruct f as [key| |]; cbn [resolve]; intros Hrun; cbv zeta.
  - apply GetActorCode_cost in Hrun. destruct r; cbn [is_Ok] in *; lia.
  - apply GetRobustAddress_cost in Hrun. destruct r; cbn [is_Ok] in *; lia.
  - apply GetShortAddress_cost in Hrun. destruct r; cbn [is_Ok] in *; lia.
Qed.

(** X8.  A system actor met for the first time is stored with itself as
    robust form.  With its short form missing from the store and known to
    the node, GetShortAddress returns the node's answer after exactly one
    offline read, one on-chain query and one write; the robust form of the
    write is the identity, which GetRobustAddress hands back without
    asking anyone. *)
Theorem GetShortAddress_cold_system_actor depth add a short :
  is_Some (SystemActorsId !! address_String add) →
  is_Ok (impl_GetShortAddress (offlineCache a) add) = false →
  impl_GetShortAddress (onChainCache a) add = Ok short →
  3 ≤ depth →
  GetShortAddress depth add a =
  (Some (Ok short),
   stored {| Short := short; Robust := address_String add; ActorCid := "" |}
     (asked_both FShort add a)).
Proof.
  intros [b Hb] Hoff Hon Hdepth.
  destruct depth as [|[|[|d]]]; [lia..|].
  rewrite GetShortAddress_S, Hon.
  destruct (impl_GetShortAddress (offlineCache a) add); [done|].
  by rewrite storeShortAddress_S, GetRobustAddress_S, Hb.
Qed.

End CacheBehaviour.

(** ** The further behaviour, on the concrete chain state *)

Lemma unsuccessful_resolve_writes_nothing_f0999 :
  succeeded (fst (resolve FShort 4 f0999 (fresh mainnet))) = false ∧
  succeeded (fst (resolve (FCode head_key) 4 f1abc (fresh mainnet))) = false ∧
  offlineCache (snd (resolve FShort 4 f0999 (fresh mainnet))) = ∅ ∧
  offlineCache (snd (resolve (FCode head_key) 4 f1abc (fresh mainnet))) = ∅.
Proof.
  assert (succeeded (fst (resolve FShort 4 f0999 (fresh mainnet))) = false) as H1
    by (vm_compute; reflexivity).
  assert (succeeded (fst (resolve (FCode head_key) 4 f1abc (fresh mainnet))) = false) as H2
    by (vm_compute; reflexivity).
  split_and!; [exact H1|exact H2|..].
  - exact (unsuccessful_resolve_writes_nothing FShort 4 f0999 (fresh mainnet) H1).
  - exact (unsuccessful_resolve_writes_nothing (FCode head_key) 4 f1abc (fresh mainnet) H2).
Defined.

Lemma resolve_provenance_f0999 :
  short_circuits FShort f0999 = false ∧
  is_Ok (tier_answer FShort (∅ : Memory) f0999) = false ∧
  ∃ g, (g = FShort ∨ g = FShort ∨ g = FRobust) ∧
       tier_answer g mainnet f0999 = Err ErrActorNotFound.
Proof.
  assert (resolve FShort 3 f0999 (fresh mainnet)
          = (Some (Err ErrActorNotFound), snd (resolve FShort 3 f0999 (fresh mainnet))))
    as Hrun by (vm_compute; reflexivity).
  exact (resolve_provenance FShort 3 f0999 (fresh mainnet) _ _ Hrun).
Defined.

Lemma cold_success_only_for_system_actors_f05 :
  is_Some (SystemActorsId !! address_String f05).
Proof.
  assert (resolve (FCode head_key) 5 f05 (fresh mainnet)
          = (Some (Ok "fil/11/storagemarket"),
             snd (resolve (FCode head_key) 5 f05 (fresh mainnet))))
    as Hrun by (vm_compute; reflexivity).
  refine (cold_success_only_for_system_actors (FCode head_key) 5 f05 (fresh mainnet)
            _ _ _ _ _ Hrun); vm_compute; reflexivity.
Defined.

Lemma returned_discovery_was_stored_f05 :
  ∃ info a0,
    facet_of (FCode head_key) info = "fil/11/storagemarket" ∧
    snd (resolve (FCode head_key) 5 f05 (fresh mainnet)) = stored info a0 ∧
    tier_answer (FCode head_key) mainnet f05 = Ok "fil/11/storagemarket".
Proof.
  assert (resolve (FCode head_key) 5 f05 (fresh mainnet)
          = (Some (Ok "fil/11/storagemarket"),
             snd (resolve (FCode head_key) 5 f05 (fresh mainnet))))
    as Hrun by (vm_compute; reflexivity).
  refine (returned_discovery_was_stored (FCode head_key) 5 f05 (fresh mainnet)
            _ _ _ _ Hrun); vm_compute; reflexivity.
Defined.

Lemma resolve_cost_f05 :
  onchain_queries (calls (snd (resolve (FCode head_key) 5 f05 (fresh mainnet)))) ≤ 0 + 1 + 1 ∧
  store_writes (calls (snd (resolve (FCode head_key) 5 f05 (fresh mainnet)))) ≤ 0 + (1 + 1).
Proof.
  assert (resolve (FCode head_key) 5 f05 (fresh mainnet)
          = (Some (Ok "fil/11/storagemarket"),
             snd (resolve (FCode head_key) 5 f05 (fresh mainnet))))
    as Hrun by (vm_compute; reflexivity).
  exact (resolve_cost (FCode head_key) 5 f05 (fresh mainnet) _ _ Hrun).
Defined.

Lemma GetShortAddress_cold_system_actor_f05 :
  GetShortAddress 3 f05 (fresh mainnet) =
  (Some (Ok "f05"),
   stored {| Short := "f05"; Robust := "f05"; ActorCid := "" |}
     (asked_both FShort f05 (fresh mainnet))).
Proof.
  refine (GetShortAddress_cold_system_actor 3 f05 (fresh mainnet) "f05" _ _ _ _).
  - exists true. reflexivity.
  - reflexivity.
  - reflexivity.
  - apply le_n.
Defined.

(** * Setting up, and the test fixtures *)

Section SetupProperties.
Context {DataSource OnChainImpl KVStore MemoryImpl : Type}.
Variable OnChain_NewImpl : DataSource → OnChainImpl + error.
Variable KVStore_NewImpl : DataSource → KVStore + error.
Variable Memory_NewImpl : DataSource → MemoryImpl + error.

(** X10.  SetupActorsCache fails only with the error of the on-chain
    initialisation or, the persistent store having failed too, with the
    error of the in-memory store: a failure of the persistent store alone
    is never reported.  When it succeeds the log is empty, the resolver is
    the one initialised, and the offline store is the persistent one
    whenever that initialised, the in-memory one only when it did not. *)
Theorem SetupActorsCache_outcome dataSource :
  match SetupActorsCache OnChain_NewImpl KVStore_NewImpl Memory_NewImpl dataSource with
  | inl a =>
      calls a = [] ∧
      OnChain_NewImpl dataSource = inl (onChainCache a) ∧
      match offlineCache a with
      | inl kv => KVStore_NewImpl dataSource = inl kv
      | inr m =>
          (∃ e, KVStore_NewImpl dataSource = inr e) ∧
          Memory_NewImpl dataSource = inl m
      end
  | inr err =>
      OnChain_NewImpl dataSource = inr err ∨
      (∃ on e, OnChain_NewImpl dataSource = inl on ∧
               KVStore_NewImpl dataSource = inr e ∧
               Memory_NewImpl dataSource = inr err)
  end.
Proof.
  unfold SetupActorsCache.
  destruct (OnChain_NewImpl dataSource) as [on|e0]; [|by left].
  destruct (KVStore_NewImpl dataSource) as [kv|e1]; [done|].
  destruct (Memory_NewImpl dataSource) as [m|e2]; cbn; [by eauto 10|].
  right. by eauto.
Qed.

End SetupProperties.

Lemma string_length_app (s t : string) :
  String.length (s +:+ t) = String.length s + String.length t.
Proof.
  induction s as [|c s IH]; [done|].
  change (S (String.length (s +:+ t)) = S (String.length s + String.length t)).
  by rewrite IH.
Qed.

Lemma string_app_inv_r (s1 s2 t : string) : s1 +:+ t = s2 +:+ t → s1 = s2.
Proof.
  revert s2. induction s1 as [|c s1 IH]; intros [|c' s2] Heq.
  - done.
  - apply (f_equal String.length) in Heq.
    rewrite !string_length_app in Heq. cbn in Heq. lia.
  - apply (f_equal String.length) in Heq.
    rewrite !string_length_app in Heq. cbn in Heq. lia.
  - change (String c (s1 +:+ t) = String c' (s2 +:+ t)) in Heq.
    injection Heq as -> Heq. f_equal. by apply IH.
Qed.

Lemma getFilename_inj_height prefix h1 h2 :
  getFilename prefix h1 = getFilename prefix h2 → h1 = h2.
Proof.
  unfold getFilename. intros Heq.
  repeat apply (inj (String.append _)) in Heq.
  by apply string_app_inv_r in Heq.
Qed.

(** X11.  The fixture files of the parser tests never clash: for each of
    the three kinds (traces, tipset, event log) different heights give
    different file names, and files of different kinds have different
    names whatever the heights.  A file name does not determine prefix and
    height in general, since both may contain the separator. *)
Theorem fixture_filenames_distinct h1 h2 :
  (tracesFilename h1 = tracesFilename h2 → h1 = h2) ∧
  (tipsetFilename h1 = tipsetFilename h2 → h1 = h2) ∧
  (ehtlogFilename h1 = ehtlogFilename h2 → h1 = h2) ∧
  tracesFilename h1 ≠ tipsetFilename h2 ∧
  tracesFilename h1 ≠ ehtlogFilename h2 ∧
  tipsetFilename h1 ≠ ehtlogFilename h2 ∧
  getFilename "a" "b_c" = getFilename "a_b" "c".
Proof.
  split_and!; try apply getFilename_inj_height; try done;
    unfold tracesFilename, tipsetFilename, ehtlogFilename, getFilename;
    vm_compute; intros [=].
Qed.

Lemma ParseGenesis_provenance_mainnet :
  Blocks genesis_tipset = genesis_block :: [] ∧
  Forall (λ tx,
      BlockCid tx = "bafy2bzacecnamqgqmifpluoeldx7zzglxcljo6oja4vrmtj7432rphldpdmm2" ∧
      TipsetCid tx = "bafy2bzacea3l7hchfijz5fvswab36fxepf6oagecp5hrstmol7zpm2l4tedf6")
    (ParseGenesis (λ id, {| Short := id; Robust := ""; ActorCid := "" |})
       [ {| Key := "f00"; Balance := 0 |}; {| Key := "f080"; Balance := 1000 |} ]
       genesis_tipset).
Proof.
  split; [reflexivity|].
  exact (proj1 (proj2 (proj2
    (ParseGenesis_provenance (λ id, {| Short := id; Robust := ""; ActorCid := "" |})
       [ {| Key := "f00"; Balance := 0 |}; {| Key := "f080"; Balance := 1000 |} ]
       genesis_tipset))) genesis_block [] eq_refl).
Defined.

(** * Termination of the resolve operations *)

Section Termination.
Context {Off On : Type} `{!IActorsCache Off} `{!IActorsCache On}.

Implicit Types (a : ActorsCache Off On) (add : Address) (depth : nat).


End Termination.


